(** * Token-level benchmark harness: [scripts/bench_token.cpp]

    A shallow embedding of the registries of tracked functions
    ([checksum_functions], [hashing_functions], [random_generation_functions],
    [equality_functions], [ordering_functions]) and of the driver
    ([bench], [bench_on_input_data], [main]), together with the properties
    the harness documentation states about them.

    Conventions.
    - A [std::string_view] is the list of its bytes; [s.size()] is [length s].
    - [std::size_t] arithmetic is carried out in [Z] modulo [2^64].
    - Undefined behaviour of the C++ source (reading past the end of a
      buffer, dividing by zero) is the value [None]. *)

From Stdlib Require Import ZArith Lia.
From Stdlib Require Import Strings.Byte Strings.String DecimalString.
From stdpp Require Import base list strings.

Local Open Scope Z_scope.

(** ** Bytes and string views *)

Definition string_view : Type := list byte.

(** [static_cast<unsigned char>(c)] *)
Definition byte_value (c : byte) : Z := Z.of_N (Byte.to_N c).

#[global] Instance byte_eq_decision : EqDecision byte := Byte.byte_eq_dec.

(** A string literal as the bytes it denotes. *)
Definition literal (s : string) : string_view := list_byte_of_string s.

(** ** [memcmp] and [std::string_view::compare]

    Both inspect a common prefix of [count] bytes as unsigned characters and
    answer with the sign of the first difference. *)

Fixpoint first_difference (lhs rhs : list byte) (count : nat) : Z :=
  match count, lhs, rhs with
  | S n, x :: xs, y :: ys =>
      if byte_value x =? byte_value y then first_difference xs ys n
      else byte_value x - byte_value y
  | _, _, _ => 0
  end.

(** [memcmp(lhs, rhs, count)]: both objects must hold [count] bytes. *)
Definition memcmp (lhs rhs : list byte) (count : nat) : option Z :=
  if (count <=? length lhs)%nat && (count <=? length rhs)%nat
  then Some (first_difference lhs rhs count)
  else None.

(** [a.compare(b)]: [traits::compare] on the common length, then the sizes. *)
Definition string_view_compare (a b : string_view) : Z :=
  let rlen := Nat.min (length a) (length b) in
  let result := first_difference a b rlen in
  if negb (result =? 0) then result
  else if (length a <? length b)%nat then -1
  else if (length a =? length b)%nat then 0
  else 1.

(** [a == b] on string views. *)
Definition string_view_eq (a b : string_view) : bool :=
  (length a =? length b)%nat && (string_view_compare a b =? 0).

(** ** Results of the ordering category *)

Inductive sz_ordering_t : Type := sz_less_k | sz_equal_k | sz_greater_k.

(** ** Bodies of the callables written out in the registries *)

Definition size_t_modulus : Z := 2 ^ 64.

(** [std::accumulate(s.begin(), s.end(), (std::size_t)0,
      [](std::size_t sum, char c) { return sum + static_cast<unsigned char>(c); })] *)
Definition checksum_std_accumulate (s : string_view) : Z :=
  fold_left (fun sum c => (sum + byte_value c) mod size_t_modulus) s 0.

(** ["std::string_view.=="] of [equality_functions] *)
Definition equality_std_string_view (a b : string_view) : option bool :=
  Some (string_view_eq a b).

(** ["memcmp"] of [equality_functions]; [&&] does not evaluate its right
    operand when the sizes differ. *)
Definition equality_memcmp (a b : string_view) : option bool :=
  if (length a =? length b)%nat then
    match memcmp a b (length a) with
    | Some order => Some (order =? 0)
    | None => None
    end
  else Some false.

(** ["std::string_view.compare"] of [ordering_functions] *)
Definition ordering_std_string_view_compare (a b : string_view)
  : option sz_ordering_t :=
  let order := string_view_compare a b in
  Some (if order =? 0 then sz_equal_k
        else if order <? 0 then sz_less_k else sz_greater_k).

(** ["memcmp"] of [ordering_functions] *)
Definition ordering_memcmp (a b : string_view) : option sz_ordering_t :=
  match memcmp a b (if (length a <? length b)%nat then length a else length b) with
  | Some order =>
      Some (if negb (order =? 0)
            then (if (length a =? length b)%nat
                  then (if order <? 0 then sz_less_k else sz_greater_k)
                  else (if (length a <? length b)%nat then sz_less_k else sz_greater_k))
            else sz_equal_k)
  | None => None
  end.

(** ** Reference definitions the documentation compares against *)

(** Lexicographic byte-wise comparison: equal iff the byte sequences are
    identical, otherwise ordered by the first differing byte, and a proper
    prefix orders first. *)
Fixpoint lexicographic_order (a c : list byte) : sz_ordering_t :=
  match a, c with
  | [], [] => sz_equal_k
  | [], _ :: _ => sz_less_k
  | _ :: _, [] => sz_greater_k
  | x :: a', y :: c' =>
      if byte_value x <? byte_value y then sz_less_k
      else if byte_value y <? byte_value x then sz_greater_k
      else lexicographic_order a' c'
  end.

(** Sum of the byte values of a string, each read as an unsigned byte. *)
Definition byte_sum (s : list byte) : Z :=
  fold_right (fun c acc => byte_value c + acc) 0 s.

(** ** A state-and-failure monad for the effectful callables *)

Definition M (St A : Type) : Type := St -> option (A * St).

#[global] Instance M_ret {St} : MRet (M St) := fun A (x : A) st => Some (x, st).
#[global] Instance M_bind {St} : MBind (M St) := fun A B (k : A -> M St B) (m : M St A) st =>
  match m st with
  | Some (x, st') => k x st'
  | None => None
  end.

(** Undefined behaviour aborts the computation. *)
Definition lift_option {St A} (o : option A) : M St A := fun st =>
  match o with
  | Some x => Some (x, st)
  | None => None
  end.

(** [for (std::size_t i = start; i < start + count; ++i) body(i);] *)
Fixpoint for_loop {St} (start count : nat) (body : nat -> M St unit) : M St unit :=
  match count with
  | O => mret tt
  | S k => _ ← body start; for_loop (S start) k body
  end.

(** ** State touched by the random-generation callables

    [buffer] is the function-local [static std::vector<char>]; the two
    generators are sequences of draws indexed by the number of calls made. *)

Record generation_state : Type := {
  buffer : list byte;
  rand_source : nat -> N;
  rand_calls : nat;
  generator_source : nat -> N;
  generator_calls : nat
}.

Definition RAND_MAX : Z := 2147483647.

(** [std::rand()] *)
Definition std_rand : M generation_state Z := fun st =>
  Some (Z.of_N (rand_source st (rand_calls st)) mod (RAND_MAX + 1),
        {| buffer := buffer st;
           rand_source := rand_source st;
           rand_calls := S (rand_calls st);
           generator_source := generator_source st;
           generator_calls := generator_calls st |}).

(** [global_random_generator()()] *)
Definition global_random_generator : M generation_state N := fun st =>
  Some (generator_source st (generator_calls st),
        {| buffer := buffer st;
           rand_source := rand_source st;
           rand_calls := rand_calls st;
           generator_source := generator_source st;
           generator_calls := S (generator_calls st) |}).

(** [buffer[i] = c] *)
Definition buffer_store (i : nat) (c : byte) : M generation_state unit := fun st =>
  if (i <? length (buffer st))%nat
  then Some (tt, {| buffer := <[i := c]> (buffer st);
                    rand_source := rand_source st;
                    rand_calls := rand_calls st;
                    generator_source := generator_source st;
                    generator_calls := generator_calls st |})
  else None.

(** [if (buffer.size() < token_length) buffer.resize(token_length);] *)
Definition buffer_reserve (token_length : nat) : M generation_state unit := fun st =>
  Some (tt, if (length (buffer st) <? token_length)%nat
            then {| buffer := buffer st ++ replicate (token_length - length (buffer st)) x00;
                    rand_source := rand_source st;
                    rand_calls := rand_calls st;
                    generator_source := generator_source st;
                    generator_calls := generator_calls st |}
            else st).

(** [a % b] on [int] *)
Definition int_rem (a b : Z) : option Z :=
  if b =? 0 then None else Some (Z.rem a b).

(** [alphabet[i]] with the index converted to [std::size_t] *)
Definition string_view_at (s : string_view) (i : Z) : option byte :=
  s !! Z.to_nat (i mod size_t_modulus).

(** [static_cast<std::uint8_t>(n)] *)
Definition to_uint8 (n : Z) : Z := n mod 256.

(** Modelled from the spec: the random-fill primitives, [randomize_string]
    of [test.hpp] and [sz::randomize] of the library, whose bodies are not
    part of this file. The collaborator contract reads: given a destination
    buffer, a length, and an alphabet (byte sequence), fills the buffer with
    exactly [length] bytes drawn from the alphabet; does not null-terminate
    or resize. Each byte is the alphabet entry selected by one draw of the
    global generator; drawing from an empty alphabet is undefined. *)
Definition fill_from_alphabet (count : nat) (alphabet : list byte)
  : M generation_state unit :=
  for_loop 0 count (fun i =>
    draw ← global_random_generator;
    c ← lift_option (alphabet !! (N.to_nat draw mod length alphabet)%nat);
    buffer_store i c).

(** Modelled from the spec: [randomize_string(buffer.data(), length,
    alphabet.data(), cardinality)] of [test.hpp], the random-fill primitive
    above applied to the first [cardinality] bytes at [alphabet]. *)
Definition randomize_string (count : nat) (alphabet : list byte) (cardinality : nat)
  : M generation_state unit :=
  if (cardinality =? 0)%nat then lift_option None
  else fill_from_alphabet count (take cardinality alphabet).

(** Modelled from the spec: [sz::randomize(span, generator, alphabet)] with
    [span] the first [count] bytes of the buffer. *)
Definition sz_randomize (count : nat) (alphabet : string_view)
  : M generation_state unit :=
  if (length alphabet =? 0)%nat then lift_option None
  else fill_from_alphabet count alphabet.

(** ** Tracked functions *)

Definition unary_function_t : Type := string_view -> M generation_state Z.
Definition binary_function_t (R : Type) : Type := string_view -> string_view -> option R.

(** Modelled from the spec: the declaration of a tracked function in
    [bench.hpp] is not part of this file. A tracked function is a tuple
    (name: text label, operation: callable, is_baseline: boolean); the flag
    is [false] when the initializer omits it. *)
Record tracked_function_gt (F : Type) : Type := {
  name : string;
  function : F;
  is_baseline : bool
}.
Arguments name {F} _.
Arguments function {F} _.
Arguments is_baseline {F} _.

Definition tracked {F} (n : string) (f : F) : tracked_function_gt F :=
  {| name := n; function := f; is_baseline := false |}.
Definition tracked_baseline {F} (n : string) (f : F) (flag : bool) : tracked_function_gt F :=
  {| name := n; function := f; is_baseline := flag |}.

(** The callable registered under a name, if any. *)
Definition entry_named {F} (n : string) (variants : list (tracked_function_gt F)) : option F :=
  match list_find (fun v => name v = n) variants with
  | Some (_, v) => Some (function v)
  | None => None
  end.

Definition tracked_unary_functions_t : Type := list (tracked_function_gt unary_function_t).
Definition tracked_binary_functions_t (R : Type) : Type :=
  list (tracked_function_gt (binary_function_t R)).

(** A callable that neither reads nor writes the shared state. *)
Definition stateless (f : string_view -> Z) : unary_function_t :=
  fun s => mret (f s).

(** ** External collaborators

    The optimised kernels and [std::hash] are consumed as opaque callables;
    which hardware variants exist is decided by the build target. *)

Record string_kernels : Type := {
  sz_checksum_serial : list byte -> nat -> Z;
  sz_checksum_haswell : list byte -> nat -> Z;
  sz_checksum_skylake : list byte -> nat -> Z;
  sz_checksum_ice : list byte -> nat -> Z;
  sz_checksum_neon : list byte -> nat -> Z;
  sz_hash_serial : list byte -> nat -> Z;
  std_hash : string_view -> Z;
  sz_equal_serial : list byte -> list byte -> nat -> bool;
  sz_equal_haswell : list byte -> list byte -> nat -> bool;
  sz_equal_skylake : list byte -> list byte -> nat -> bool;
  sz_order_serial : list byte -> nat -> list byte -> nat -> sz_ordering_t;
  sz_order_haswell : list byte -> nat -> list byte -> nat -> sz_ordering_t;
  sz_order_skylake : list byte -> nat -> list byte -> nat -> sz_ordering_t
}.

Record build_target : Type := {
  SZ_USE_HASWELL : bool;
  SZ_USE_SKYLAKE : bool;
  SZ_USE_ICE : bool;
  SZ_USE_NEON : bool
}.

(** [#if flag ... #endif] around registry entries *)
Definition when {A} (flag : bool) (entries : list A) : list A :=
  if flag then entries else [].

(** ** The registries *)

Section Registries.
Variable kernels : string_kernels.
Variable target : build_target.

Definition checksum_functions : tracked_unary_functions_t :=
  let wrap_sz (function : list byte -> nat -> Z) : unary_function_t :=
    stateless (fun s => function s (length s)) in
  [ tracked "std::accumulate" (stateless checksum_std_accumulate);
    tracked_baseline "sz_checksum_serial" (wrap_sz (sz_checksum_serial kernels)) true ]
  ++ when (SZ_USE_HASWELL target)
       [ tracked_baseline "sz_checksum_haswell" (wrap_sz (sz_checksum_haswell kernels)) true ]
  ++ when (SZ_USE_SKYLAKE target)
       [ tracked_baseline "sz_checksum_skylake" (wrap_sz (sz_checksum_skylake kernels)) true ]
  ++ when (SZ_USE_ICE target)
       [ tracked_baseline "sz_checksum_ice" (wrap_sz (sz_checksum_ice kernels)) true ]
  ++ when (SZ_USE_NEON target)
       [ tracked_baseline "sz_checksum_neon" (wrap_sz (sz_checksum_neon kernels)) true ].

Definition hashing_functions : tracked_unary_functions_t :=
  let wrap_sz (function : list byte -> nat -> Z) : unary_function_t :=
    stateless (fun s => function s (length s)) in
  [ tracked "sz_hash_serial" (wrap_sz (sz_hash_serial kernels));
    tracked "std::hash" (stateless (std_hash kernels)) ].

Definition equality_functions : tracked_binary_functions_t bool :=
  let wrap_sz (function : list byte -> list byte -> nat -> bool) : binary_function_t bool :=
    fun a b => Some ((length a =? length b)%nat && function a b (length a)) in
  [ tracked "std::string_view.==" equality_std_string_view;
    tracked_baseline "sz_equal_serial" (wrap_sz (sz_equal_serial kernels)) true ]
  ++ when (SZ_USE_HASWELL target)
       [ tracked_baseline "sz_equal_haswell" (wrap_sz (sz_equal_haswell kernels)) true ]
  ++ when (SZ_USE_SKYLAKE target)
       [ tracked_baseline "sz_equal_skylake" (wrap_sz (sz_equal_skylake kernels)) true ]
  ++ [ tracked "memcmp" equality_memcmp ].

Definition ordering_functions : tracked_binary_functions_t sz_ordering_t :=
  let wrap_sz (function : list byte -> nat -> list byte -> nat -> sz_ordering_t)
    : binary_function_t sz_ordering_t :=
    fun a b => Some (function a (length a) b (length b)) in
  [ tracked "std::string_view.compare" ordering_std_string_view_compare;
    tracked_baseline "sz_order_serial" (wrap_sz (sz_order_serial kernels)) true ]
  ++ when (SZ_USE_HASWELL target)
       [ tracked_baseline "sz_order_haswell" (wrap_sz (sz_order_haswell kernels)) true ]
  ++ when (SZ_USE_SKYLAKE target)
       [ tracked_baseline "sz_order_skylake" (wrap_sz (sz_order_skylake kernels)) true ]
  ++ [ tracked "memcmp" ordering_memcmp ].

End Registries.

(** Number of entries of a registry whose baseline flag is set. *)
Definition baseline_count {F} (variants : list (tracked_function_gt F)) : nat :=
  length (filter (fun v => is_baseline v = true) variants).

(** Names of the flagged entries, in registry order. *)
Definition baseline_names {F} (variants : list (tracked_function_gt F)) : list string :=
  name <$> filter (fun v => is_baseline v = true) variants.

Definition exactly_one_baseline {F} (variants : list (tracked_function_gt F)) : Prop :=
  baseline_count variants = 1%nat.

(** Number of hardware variants a build target enables, per category. *)
Definition checksum_variants (t : build_target) : nat :=
  (Nat.b2n (SZ_USE_HASWELL t) + Nat.b2n (SZ_USE_SKYLAKE t)
   + Nat.b2n (SZ_USE_ICE t) + Nat.b2n (SZ_USE_NEON t))%nat.
Definition comparison_variants (t : build_target) : nat :=
  (Nat.b2n (SZ_USE_HASWELL t) + Nat.b2n (SZ_USE_SKYLAKE t))%nat.

(** What an equality kernel is expected to compute on [n] readable bytes. *)
Definition equal_kernel_correct (f : list byte -> list byte -> nat -> bool) : Prop :=
  forall a b n, (n <= length a)%nat -> (n <= length b)%nat ->
    f a b n = bool_decide (take n a = take n b).

(** One choice of collaborators for concrete runs: every kernel answers
    with the reference definition of its category on the bytes it is given. *)
Definition reference_kernels : string_kernels :=
  let checksum (s : list byte) (n : nat) := checksum_std_accumulate (take n s) in
  let equal (a b : list byte) (n : nat) := bool_decide (take n a = take n b) in
  let order (a : list byte) (n : nat) (b : list byte) (m : nat) :=
    lexicographic_order (take n a) (take m b) in
  {| sz_checksum_serial := checksum; sz_checksum_haswell := checksum;
     sz_checksum_skylake := checksum; sz_checksum_ice := checksum;
     sz_checksum_neon := checksum;
     sz_hash_serial := checksum; std_hash := checksum_std_accumulate;
     sz_equal_serial := equal; sz_equal_haswell := equal; sz_equal_skylake := equal;
     sz_order_serial := order; sz_order_haswell := order; sz_order_skylake := order |}.

(** The build with no hardware-specific variant. *)
Definition serial_target : build_target :=
  {| SZ_USE_HASWELL := false; SZ_USE_SKYLAKE := false;
     SZ_USE_ICE := false; SZ_USE_NEON := false |}.

(** ** The random-generation registry *)

Definition decimal (n : nat) : string := NilEmpty.string_of_uint (Nat.to_uint n).

(** ["std::rand % uint8"] *)
Definition generate_std_rand_uint8 (token_length : nat) : unary_function_t :=
  fun alphabet =>
    let max_alphabet_size := to_uint8 (Z.of_nat (length alphabet)) in
    _ ← for_loop 0 token_length (fun i =>
          r ← std_rand;
          index ← lift_option (int_rem r max_alphabet_size);
          c ← lift_option (string_view_at alphabet index);
          buffer_store i c);
    mret (Z.of_nat token_length).

(** ["std::uniform_int<uint8>"] *)
Definition generate_uniform_int_uint8 (token_length : nat) : unary_function_t :=
  fun alphabet =>
    _ ← randomize_string token_length alphabet (length alphabet);
    mret (Z.of_nat token_length).

(** ["sz::randomize"] *)
Definition generate_sz_randomize (token_length : nat) : unary_function_t :=
  fun alphabet =>
    _ ← sz_randomize token_length alphabet;
    mret (Z.of_nat token_length).

Definition random_generation_registry (token_length : nat) : tracked_unary_functions_t :=
  let suffix := String.append ", " (String.append (decimal token_length) " chars") in
  [ tracked (String.append "std::rand % uint8" suffix) (generate_std_rand_uint8 token_length);
    tracked (String.append "std::uniform_int<uint8>" suffix) (generate_uniform_int_uint8 token_length);
    tracked (String.append "sz::randomize" suffix) (generate_sz_randomize token_length) ].

Definition random_generation_functions (token_length : nat)
  : M generation_state tracked_unary_functions_t :=
  _ ← buffer_reserve token_length;
  mret (random_generation_registry token_length).

(** What the documentation asks of one call of a generation callable:
    [token_length] is returned, the buffer keeps its size, the bytes from
    index [token_length] on are unchanged, and the first [token_length]
    bytes belong to the alphabet. *)
Definition fills_prefix (f : unary_function_t) (token_length : nat)
    (alphabet : string_view) (st : generation_state) : Prop :=
  exists st',
    f alphabet st = Some (Z.of_nat token_length, st')
    /\ length (buffer st') = length (buffer st)
    /\ drop token_length (buffer st') = drop token_length (buffer st)
    /\ Forall (fun c => c ∈ alphabet) (take token_length (buffer st')).

(** One iteration that stores a byte of the alphabet at its own index. *)
Definition stores_from (alphabet : list byte) (body : nat -> M generation_state unit) : Prop :=
  forall i st, (i < length (buffer st))%nat ->
    exists c st', body i st = Some (tt, st')
      /\ c ∈ alphabet /\ buffer st' = <[i := c]> (buffer st).

(** An alphabet of every byte value, 256 entries. *)
Definition byte_alphabet : string_view :=
  omap Byte.of_nat (seq 0 256).

(** A process state with an empty buffer whose generators count up. *)
Definition initial_state : generation_state :=
  {| buffer := []; rand_source := N.of_nat; rand_calls := 0;
     generator_source := N.of_nat; generator_calls := 0 |}.

(** ** The driver

    The runners [bench_unary_functions] and [bench_binary_functions] of
    [bench.hpp] time their arguments against a wall clock; the driver is
    observed through the sequence of runner invocations and [printf] calls
    it performs. *)

Inductive event : Type :=
| printf (format : string) (arguments : list Z)
| bench_unary_functions (strings : list string_view) (variants : tracked_unary_functions_t)
| bench_binary_functions {R : Type} (strings : list string_view)
    (variants : tracked_binary_functions_t R).

Definition execution : Type := list event.

Definition emit (e : event) : M execution unit := fun log => Some (tt, log ++ [e]).

(** [for (auto x : {...}) body(x);] *)
Fixpoint for_each {St A} (items : list A) (body : A -> M St unit) : M St unit :=
  match items with
  | [] => mret tt
  | x :: rest => _ ← body x; for_each rest body
  end.

(** A format string ending in a line feed. *)
Definition line (s : string) : string :=
  String.append s (String (Ascii.ascii_of_nat 10) EmptyString).

(** Modelled from the spec: the dataset type of [bench.hpp] is not part of
    this file. Three named corpora are supplied externally: tokens, lines,
    and text (the whole input treated as one element). *)
Record dataset_t : Type := {
  text : string_view;
  tokens : list string_view;
  lines : list string_view
}.

(** Modelled from the spec: [filter_by_length] of [bench.hpp] is not part of
    this file. It returns, preserving relative order, exactly the elements
    whose length equals [length]. *)
Definition filter_by_length (corpus : list string_view) (n : nat) : list string_view :=
  filter (fun s => length s = n) corpus.

(** What the process is started with: the dataset loader, which may abort
    the run, and the configured time budget. *)
Record environment : Type := {
  prepare_benchmark_environment : Z -> list string_view -> option dataset_t;
  seconds_per_benchmark : Z
}.

Definition token_lengths : list nat := [1; 2; 3; 4; 5; 6; 7; 8; 16; 32]%nat.

Section Driver.
Variable kernels : string_kernels.
Variable target : build_target.
Variable env : environment.

Definition bench_dereferencing (name : string) (strings : list string_view)
  : M execution unit :=
  let func : unary_function_t := stateless (fun s => Z.of_nat (length s)) in
  let converts : tracked_unary_functions_t := [ tracked name func ] in
  emit (bench_unary_functions strings converts).

Definition bench (strings : list string_view) : M execution unit :=
  if (length strings =? 0)%nat then mret tt
  else
    _ ← emit (bench_unary_functions strings (checksum_functions kernels target));
    _ ← emit (bench_unary_functions strings (hashing_functions kernels));
    _ ← emit (bench_binary_functions strings (equality_functions kernels target));
    _ ← emit (bench_binary_functions strings (ordering_functions kernels target));
    _ ← bench_dereferencing "std::string -> std::string_view" strings;
    bench_dereferencing "sz::string -> std::string_view" strings.

Definition bench_on_input_data (argc : Z) (argv : list string_view)
  : M execution unit :=
  dataset ← lift_option (prepare_benchmark_environment env argc argv);
  _ ← emit (printf (line "Benchmarking on real words:") []);
  _ ← bench (tokens dataset);
  _ ← emit (printf (line "Benchmarking on real lines:") []);
  _ ← bench (lines dataset);
  _ ← emit (printf (line "Benchmarking on entire dataset:") []);
  _ ← bench [text dataset];
  for_each token_lengths (fun token_length =>
    _ ← emit (printf (line "Benchmarking on real words of length %zu:")
                     [Z.of_nat token_length]);
    bench (filter_by_length (tokens dataset) token_length)).

Definition bench_on_synthetic_data : M execution unit := mret tt.

Definition main (argc : Z) (argv : list string_view) : M execution Z :=
  _ ← emit (printf (line "StringZilla. Starting token-level benchmarks.") []);
  _ ← emit (printf (line "- Seconds per benchmark: %zu") [seconds_per_benchmark env]);
  _ ← (if argc <? 2 then bench_on_synthetic_data
       else bench_on_input_data argc argv);
  _ ← emit (printf (line "All benchmarks passed.") []);
  mret 0.

End Driver.

(** The events a computation adds when started from an empty log. *)
Definition events_of {A} (m : M execution A) : option execution :=
  match m [] with
  | Some (_, log) => Some log
  | None => None
  end.

(** Which events invoke tracked functions. *)
Definition is_runner_call (e : event) : bool :=
  match e with
  | printf _ _ => false
  | _ => true
  end.

(** The line printed ahead of each corpus. *)
Definition words_header : event := printf (line "Benchmarking on real words:") [].
Definition lines_header : event := printf (line "Benchmarking on real lines:") [].
Definition text_header : event := printf (line "Benchmarking on entire dataset:") [].
Definition length_header (n : nat) : event :=
  printf (line "Benchmarking on real words of length %zu:") [Z.of_nat n].

(** The events one call of [bench] adds. *)
Definition bench_log (k : string_kernels) (t : build_target) (strings : list string_view)
  : execution :=
  default [] (events_of (bench k t strings)).

(** A dataset and a loader for concrete runs: the tokens "cat", "dog",
    "cat", served whenever a path is given on the command line. *)
Definition cat_dog_dataset : dataset_t :=
  {| text := literal "cat dog cat";
     tokens := [literal "cat"; literal "dog"; literal "cat"];
     lines := [literal "cat dog cat"] |}.
Definition cat_dog_environment : environment :=
  {| prepare_benchmark_environment := fun argc _ =>
       if argc <? 2 then None else Some cat_dog_dataset;
     seconds_per_benchmark := 5 |}.

(** Modelled from the spec: the result a runner reports per tracked
    function is (name, bytes_processed, elapsed_time, operations_count,
    mismatch_count). *)
Record benchmark_result : Type := {
  result_name : string;
  bytes_processed : Z;
  elapsed_time : Z;
  operations_count : Z;
  mismatch_count : Z
}.

(** The results reported along an execution, for any behaviour of the
    runners, and their totals. *)
Definition reported (runner : event -> list benchmark_result) (log : execution)
  : list benchmark_result :=
  flat_map (fun e => if is_runner_call e then runner e else []) log.
Definition total_bytes_processed (results : list benchmark_result) : Z :=
  fold_right (fun r acc => bytes_processed r + acc) 0 results.
Definition total_mismatches (results : list benchmark_result) : Z :=
  fold_right (fun r acc => mismatch_count r + acc) 0 results.

(** ** Notions used by the further properties *)

(** The answer an order gives once its arguments are exchanged. *)
Definition flip_order (o : sz_ordering_t) : sz_ordering_t :=
  match o with
  | sz_less_k => sz_greater_k
  | sz_equal_k => sz_equal_k
  | sz_greater_k => sz_less_k
  end.

(** The value the [n]-th call of [std::rand()] returns. *)
Definition rand_value (st : generation_state) (n : nat) : Z :=
  Z.of_N (rand_source st n) mod (RAND_MAX + 1).

(** The corpus a runner is invoked on. *)
Definition event_corpus (e : event) : option (list string_view) :=
  match e with
  | printf _ _ => None
  | bench_unary_functions strings _ => Some strings
  | bench_binary_functions strings _ => Some strings
  end.

(** The corpora [bench_on_input_data] goes through, in order. *)
Definition driven_corpora (d : dataset_t) : list (list string_view) :=
  [tokens d; lines d; [text d]]
  ++ map (filter_by_length (tokens d)) token_lengths.

(** The body of the loop of ["std::rand % uint8"]. *)
Definition std_rand_uint8_body (alphabet : string_view) (i : nat) : M generation_state unit :=
  r ← std_rand;
  index ← lift_option (int_rem r (to_uint8 (Z.of_nat (length alphabet))));
  c ← lift_option (string_view_at alphabet index);
  buffer_store i c.

(** How many runner invocations and how many printed lines a log holds. *)
Definition runner_calls (log : list event) : nat :=
  length (filter (fun e => is_runner_call e = true) log).
Definition printed_lines (log : list event) : nat :=
  length (filter (fun e => is_runner_call e = false) log).



(** An alphabet of 257 bytes: every byte value, then one more letter. *)
Definition wide_alphabet : string_view := byte_alphabet ++ literal "a".

(** * Properties *)

(** ** Byte comparison *)

Lemma byte_value_inj (x y : byte) : byte_value x = byte_value y -> x = y.
Proof.
  unfold byte_value. intros H. apply N2Z.inj in H.
  assert (Hs : Some x = Some y)
    by (rewrite <- (Byte.of_to_N x), <- (Byte.of_to_N y); now rewrite H).
  now inversion Hs.
Qed.

Lemma byte_value_range (x : byte) : 0 <= byte_value x <= 255.
Proof.
  unfold byte_value. pose proof (Byte.to_N_bounded x) as Hb. lia.
Qed.

Lemma byte_value_eqb (x y : byte) : (byte_value x =? byte_value y) = bool_decide (x = y).
Proof.
  destruct (Z.eqb_spec (byte_value x) (byte_value y)) as [He | Hne].
  - apply byte_value_inj in He. now rewrite bool_decide_eq_true_2.
  - rewrite bool_decide_eq_false_2; [reflexivity | congruence].
Qed.

Lemma first_difference_refl (s : list byte) (n : nat) : first_difference s s n = 0.
Proof.
  revert n. induction s as [| x s IH]; intros [| n]; simpl; try reflexivity.
  now rewrite Z.eqb_refl.
Qed.

Lemma first_difference_opp (a c : list byte) (n : nat) :
  first_difference c a n = - first_difference a c n.
Proof.
  revert c n. induction a as [| x a IH]; intros [| y c] [| n]; simpl; try reflexivity.
  rewrite (Z.eqb_sym (byte_value y)).
  destruct (Z.eqb_spec (byte_value x) (byte_value y)); [apply IH | lia].
Qed.

Lemma first_difference_zero (a c : list byte) (n : nat) :
  (n <= length a)%nat -> (n <= length c)%nat ->
  first_difference a c n = 0 <-> take n a = take n c.
Proof.
  revert c n. induction a as [| x a IH]; intros [| y c] [| n]; simpl; intros Ha Hc;
    try (split; intros; (reflexivity || lia)).
  destruct (Z.eqb_spec (byte_value x) (byte_value y)) as [He | Hne].
  - apply byte_value_inj in He. subst y.
    rewrite IH by lia. split; [now intros -> | now inversion 1].
  - split; [lia | inversion 1; congruence].
Qed.

(** ** The ordering entries *)

Lemma lexicographic_order_refl (s : list byte) : lexicographic_order s s = sz_equal_k.
Proof.
  induction s as [| x s IH]; simpl; [reflexivity |].
  now rewrite Z.ltb_irrefl.
Qed.

Lemma lexicographic_order_equal (a c : list byte) :
  lexicographic_order a c = sz_equal_k <-> a = c.
Proof.
  split; [| intros ->; apply lexicographic_order_refl].
  revert c. induction a as [| x a IH]; intros [| y c]; simpl; try discriminate; [reflexivity |].
  destruct (Z.ltb_spec (byte_value x) (byte_value y)); [discriminate |].
  destruct (Z.ltb_spec (byte_value y) (byte_value x)); [discriminate |].
  intros Heq. f_equal; [apply byte_value_inj; lia | now apply IH].
Qed.

(** The ["std::string_view.compare"] entry is the lexicographic order. *)
Lemma ordering_std_string_view_compare_lexicographic (a c : string_view) :
  ordering_std_string_view_compare a c = Some (lexicographic_order a c).
Proof.
  unfold ordering_std_string_view_compare. f_equal.
  revert c. induction a as [| x a IH]; intros [| y c]; try reflexivity.
  specialize (IH c). revert IH.
  unfold string_view_compare. simpl.
  destruct (Z.eqb_spec (byte_value x) (byte_value y)) as [He | Hne].
  - rewrite He, Z.ltb_irrefl. tauto.
  - intros _.
    replace (negb (byte_value x - byte_value y =? 0)) with true
      by (symmetry; apply negb_true_iff, Z.eqb_neq; lia).
    replace (byte_value x - byte_value y =? 0) with false
      by (symmetry; apply Z.eqb_neq; lia).
    destruct (Z.ltb_spec (byte_value x) (byte_value y)),
             (Z.ltb_spec (byte_value y) (byte_value x)),
             (Z.ltb_spec (byte_value x - byte_value y) 0); (reflexivity || lia).
Qed.

Lemma memcmp_common_prefix (a c : list byte) :
  memcmp a c (if (length a <? length c)%nat then length a else length c)
  = Some (first_difference a c (Nat.min (length a) (length c))).
Proof.
  unfold memcmp.
  destruct (Nat.ltb_spec (length a) (length c)).
  - rewrite Nat.min_l by lia.
    rewrite (proj2 (Nat.leb_le _ _)), (proj2 (Nat.leb_le _ _)) by lia. reflexivity.
  - rewrite Nat.min_r by lia.
    rewrite (proj2 (Nat.leb_le _ _)), (proj2 (Nat.leb_le _ _)) by lia. reflexivity.
Qed.

(** On strings of one length the ["memcmp"] entry is the lexicographic order. *)
Lemma ordering_memcmp_same_length (a c : string_view) :
  length a = length c -> ordering_memcmp a c = Some (lexicographic_order a c).
Proof.
  intros Hlen. rewrite <- ordering_std_string_view_compare_lexicographic.
  unfold ordering_memcmp, ordering_std_string_view_compare, string_view_compare.
  rewrite memcmp_common_prefix. cbv zeta.
  rewrite Hlen, Nat.eqb_refl, Nat.ltb_irrefl.
  destruct (Z.eqb_spec (first_difference a c (Nat.min (length c) (length c))) 0) as [He | Hne];
    simpl; [reflexivity |].
  now rewrite (proj2 (Z.eqb_neq _ _) Hne).
Qed.

Lemma ordering_memcmp_refl (s : string_view) : ordering_memcmp s s = Some sz_equal_k.
Proof.
  rewrite ordering_memcmp_same_length by reflexivity.
  now rewrite lexicographic_order_refl.
Qed.

Lemma ordering_memcmp_antisym (a c : string_view) :
  ordering_memcmp a c = Some sz_less_k -> ordering_memcmp c a = Some sz_greater_k.
Proof.
  unfold ordering_memcmp. rewrite !memcmp_common_prefix.
  rewrite (Nat.min_comm (length c)), (first_difference_opp a c).
  set (order := first_difference a c _).
  rewrite (Nat.eqb_sym (length c)).
  destruct (Z.eqb_spec order 0) as [He | Hne]; simpl; [discriminate |].
  replace (- order =? 0) with false by (symmetry; apply Z.eqb_neq; lia). simpl.
  destruct (Nat.eqb_spec (length a) (length c)) as [Hl | Hl].
  - destruct (Z.ltb_spec order 0); [| discriminate]. intros _.
    destruct (Z.ltb_spec (- order) 0); [lia | reflexivity].
  - destruct (Nat.ltb_spec (length a) (length c)); [| discriminate]. intros _.
    destruct (Nat.ltb_spec (length c) (length a)); [lia | reflexivity].
Qed.

Lemma lexicographic_order_antisym (a c : list byte) :
  lexicographic_order a c = sz_less_k -> lexicographic_order c a = sz_greater_k.
Proof.
  revert c. induction a as [| x a IH]; intros [| y c]; simpl; try discriminate; [reflexivity |].
  destruct (Z.ltb_spec (byte_value x) (byte_value y)) as [Hlt | Hge].
  - intros _. destruct (Z.ltb_spec (byte_value y) (byte_value x)); [lia | reflexivity].
  - destruct (Z.ltb_spec (byte_value y) (byte_value x)); [discriminate | apply IH].
Qed.

Lemma ordering_registry_entries (k : string_kernels) (t : build_target) :
  entry_named "std::string_view.compare" (ordering_functions k t)
    = Some ordering_std_string_view_compare
  /\ entry_named "memcmp" (ordering_functions k t) = Some ordering_memcmp.
Proof.
  destruct t as [[] [] ? ?]; split; reflexivity.
Qed.


(** C1. The ["memcmp"] entry of [ordering_functions] departs from the
    lexicographic byte-wise order on strings of different lengths: a proper
    prefix is reported equal to the longer string ("a" against "ab"), and
    strings that differ inside their common length are ordered by their
    sizes instead of by the first differing byte ("b" against "ab"). The
    ["std::string_view.compare"] entry answers lexicographically on the
    same pairs. *)
Theorem ordering_memcmp_not_lexicographic (k : string_kernels) (t : build_target) :
  entry_named "memcmp" (ordering_functions k t) = Some ordering_memcmp
  /\ ordering_memcmp (literal "a") (literal "ab") = Some sz_equal_k
  /\ lexicographic_order (literal "a") (literal "ab") = sz_less_k
  /\ ordering_std_string_view_compare (literal "a") (literal "ab") = Some sz_less_k
  /\ ordering_memcmp (literal "b") (literal "ab") = Some sz_less_k
  /\ lexicographic_order (literal "b") (literal "ab") = sz_greater_k
  /\ ordering_std_string_view_compare (literal "b") (literal "ab") = Some sz_greater_k.
Proof.
  split; [apply ordering_registry_entries |].
  repeat split; reflexivity.
Qed.

(** C9. Each ordering entry whose body is written in [ordering_functions]
    (["std::string_view.compare"] and ["memcmp"]) answers equal on a
    self-pair, and whenever it answers less on (a, c) it answers greater on
    (c, a). *)
Theorem ordering_entries_reflexive_antisymmetric
    (k : string_kernels) (t : build_target)
    (f : binary_function_t sz_ordering_t) (a c : string_view) :
  entry_named "std::string_view.compare" (ordering_functions k t) = Some f
  \/ entry_named "memcmp" (ordering_functions k t) = Some f ->
  f a a = Some sz_equal_k
  /\ (f a c = Some sz_less_k -> f c a = Some sz_greater_k).
Proof.
  destruct (ordering_registry_entries k t) as [Hcompare Hmemcmp].
  rewrite Hcompare, Hmemcmp.
  intros [Hf | Hf]; inversion Hf; subst f; clear Hf.
  - rewrite !ordering_std_string_view_compare_lexicographic, lexicographic_order_refl.
    split; [reflexivity |]. intros Hless. f_equal.
    apply lexicographic_order_antisym. now inversion Hless.
  - split; [apply ordering_memcmp_refl | apply ordering_memcmp_antisym].
Qed.

Lemma ordering_entries_reflexive_antisymmetric_witness :
  ordering_memcmp (literal "cat") (literal "cat") = Some sz_equal_k
  /\ ordering_memcmp (literal "dog") (literal "cat") = Some sz_greater_k.
Proof.
  destruct (ordering_entries_reflexive_antisymmetric reference_kernels serial_target
              ordering_memcmp (literal "cat") (literal "dog")) as [Hrefl Hanti].
  - right. reflexivity.
  - split; [exact Hrefl | apply Hanti; reflexivity].
Defined.

(** ** The equality entries *)

Lemma string_view_eq_decide (a c : string_view) :
  string_view_eq a c = bool_decide (a = c).
Proof.
  pose proof (ordering_std_string_view_compare_lexicographic a c) as Hlex.
  unfold ordering_std_string_view_compare in Hlex. cbv zeta in Hlex.
  unfold string_view_eq.
  destruct (decide (a = c)) as [-> | Hne].
  - rewrite bool_decide_eq_true_2 by reflexivity.
    rewrite Nat.eqb_refl. simpl.
    rewrite lexicographic_order_refl in Hlex.
    destruct (string_view_compare c c =? 0); [reflexivity |].
    destruct (string_view_compare c c <? 0); inversion Hlex.
  - rewrite bool_decide_eq_false_2 by assumption.
    apply andb_false_iff. right.
    destruct (string_view_compare a c =? 0); [| reflexivity].
    exfalso. apply Hne, lexicographic_order_equal. now inversion Hlex.
Qed.

Lemma equality_memcmp_decide (a c : string_view) :
  equality_memcmp a c = Some (bool_decide (a = c)).
Proof.
  unfold equality_memcmp, memcmp.
  destruct (Nat.eqb_spec (length a) (length c)) as [Hlen | Hlen].
  - rewrite (proj2 (Nat.leb_le _ _)), (proj2 (Nat.leb_le _ _)) by lia. simpl.
    f_equal. apply eq_true_iff_eq.
    rewrite Z.eqb_eq, bool_decide_eq_true.
    rewrite first_difference_zero by lia.
    rewrite (take_ge a) by lia. rewrite (take_ge c) by lia. reflexivity.
  - rewrite bool_decide_eq_false_2; [reflexivity | congruence].
Qed.

(** Every entry of [equality_functions], the wrapped kernels included,
    agrees with byte-wise equality once the kernels do on the bytes the
    size guard lets them read. *)
Lemma equality_functions_agree (k : string_kernels) (t : build_target)
    (v : tracked_function_gt (binary_function_t bool)) (a c : string_view) :
  equal_kernel_correct (sz_equal_serial k) ->
  equal_kernel_correct (sz_equal_haswell k) ->
  equal_kernel_correct (sz_equal_skylake k) ->
  v ∈ equality_functions k t ->
  function v a c = Some (bool_decide (a = c)).
Proof.
  intros Hserial Hhaswell Hskylake Hv.
  assert (Hwrap : forall f, equal_kernel_correct f ->
            Some ((length a =? length c)%nat && f a c (length a))
            = Some (bool_decide (a = c))).
  { intros f Hf. f_equal.
    destruct (Nat.eqb_spec (length a) (length c)) as [Hlen | Hlen]; simpl.
    - rewrite Hf by lia. rewrite (take_ge a) by lia. rewrite (take_ge c) by lia.
      reflexivity.
    - rewrite bool_decide_eq_false_2; [reflexivity | congruence]. }
  unfold equality_functions, when in Hv.
  destruct (SZ_USE_HASWELL t), (SZ_USE_SKYLAKE t); simpl in Hv;
    rewrite ?elem_of_cons, elem_of_nil in Hv;
    repeat (destruct Hv as [-> | Hv]); try (destruct Hv); simpl;
    try (now apply Hwrap);
    try (unfold equality_std_string_view; now rewrite string_view_eq_decide);
    apply equality_memcmp_decide.
Qed.





(** ** The checksum entry *)

Lemma byte_sum_bounds (s : list byte) : 0 <= byte_sum s <= 255 * Z.of_nat (length s).
Proof.
  induction s as [| x s IH]; [simpl; lia |].
  change (byte_sum (x :: s)) with (byte_value x + byte_sum s).
  pose proof (byte_value_range x). rewrite length_cons, Nat2Z.inj_succ. lia.
Qed.

Lemma accumulate_from (s : list byte) (sum : Z) :
  fold_left (fun sum c => (sum + byte_value c) mod size_t_modulus) s (sum mod size_t_modulus)
  = (sum + byte_sum s) mod size_t_modulus.
Proof.
  revert sum. induction s as [| x s IH]; intros sum.
  - simpl. now rewrite Z.add_0_r.
  - change (byte_sum (x :: s)) with (byte_value x + byte_sum s). simpl fold_left.
    rewrite Zplus_mod_idemp_l, IH. f_equal. lia.
Qed.

(** The checksum is the byte sum reduced to the width of [std::size_t]. *)
Lemma checksum_std_accumulate_modular (s : string_view) :
  checksum_std_accumulate s = byte_sum s mod size_t_modulus.
Proof.
  unfold checksum_std_accumulate.
  change 0 with (0 mod size_t_modulus) at 1. now rewrite accumulate_from.
Qed.

Lemma checksum_registry_entry (k : string_kernels) (t : build_target) :
  entry_named "std::accumulate" (checksum_functions k t)
  = Some (stateless checksum_std_accumulate).
Proof. reflexivity. Qed.

(** C8. The ["std::accumulate"] entry of [checksum_functions] returns the
    sum of the byte values of its input, each read as an unsigned byte, for
    every string that fits an address space (fewer than 2^56 bytes, so that
    the sum stays below 2^64), and changes no state; on "cat" it returns
    312 = 99 + 97 + 116. *)
Theorem checksum_std_accumulate_is_byte_sum
    (k : string_kernels) (t : build_target) (f : unary_function_t)
    (s : string_view) (st : generation_state) :
  entry_named "std::accumulate" (checksum_functions k t) = Some f ->
  Z.of_nat (length s) < 2 ^ 56 ->
  f s st = Some (byte_sum s, st)
  /\ f (literal "cat") st = Some (312, st)
  /\ byte_sum (literal "cat") = 99 + 97 + 116.
Proof.
  rewrite checksum_registry_entry. intros Hf Hlen. inversion Hf. subst f.
  unfold stateless, mret, M_ret.
  rewrite checksum_std_accumulate_modular.
  pose proof (byte_sum_bounds s) as Hb.
  rewrite Z.mod_small by (unfold size_t_modulus; lia).
  repeat split.
Qed.

Lemma checksum_std_accumulate_is_byte_sum_witness :
  let st := {| buffer := []; rand_source := fun _ => 0%N; rand_calls := 0;
               generator_source := fun _ => 0%N; generator_calls := 0 |} in
  stateless checksum_std_accumulate (literal "dog") st = Some (byte_sum (literal "dog"), st)
  /\ stateless checksum_std_accumulate (literal "cat") st = Some (312, st)
  /\ byte_sum (literal "cat") = 99 + 97 + 116.
Proof.
  intros st.
  apply (checksum_std_accumulate_is_byte_sum reference_kernels serial_target
           (stateless checksum_std_accumulate) (literal "dog") st).
  - reflexivity.
  - vm_compute. reflexivity.
Defined.

(** ** Baseline flags of the registries *)

(** C2, as stated, fails: [hashing_functions] flags no entry at all. *)
Lemma hashing_functions_not_one_baseline :
  ~ exactly_one_baseline (hashing_functions reference_kernels).
Proof. unfold exactly_one_baseline. vm_compute. discriminate. Qed.

(** C2, amended. [hashing_functions] flags no entry; [checksum_functions],
    [equality_functions] and [ordering_functions] flag the serial kernel
    entry and every hardware-specific variant the build enables, and no
    other entry: the number of flagged entries is one plus the number of
    enabled variants, which is exactly one in a build without them. *)
Theorem registry_baseline_flags (k : string_kernels) (t : build_target) :
  baseline_names (hashing_functions k) = []
  /\ baseline_names (checksum_functions k t)
     = ["sz_checksum_serial"]
       ++ when (SZ_USE_HASWELL t) ["sz_checksum_haswell"]
       ++ when (SZ_USE_SKYLAKE t) ["sz_checksum_skylake"]
       ++ when (SZ_USE_ICE t) ["sz_checksum_ice"]
       ++ when (SZ_USE_NEON t) ["sz_checksum_neon"]
  /\ baseline_names (equality_functions k t)
     = ["sz_equal_serial"]
       ++ when (SZ_USE_HASWELL t) ["sz_equal_haswell"]
       ++ when (SZ_USE_SKYLAKE t) ["sz_equal_skylake"]
  /\ baseline_names (ordering_functions k t)
     = ["sz_order_serial"]
       ++ when (SZ_USE_HASWELL t) ["sz_order_haswell"]
       ++ when (SZ_USE_SKYLAKE t) ["sz_order_skylake"]
  /\ baseline_count (hashing_functions k) = 0%nat
  /\ baseline_count (checksum_functions k t) = (1 + checksum_variants t)%nat
  /\ baseline_count (equality_functions k t) = (1 + comparison_variants t)%nat
  /\ baseline_count (ordering_functions k t) = (1 + comparison_variants t)%nat
  /\ exactly_one_baseline (checksum_functions k serial_target)
  /\ exactly_one_baseline (equality_functions k serial_target)
  /\ exactly_one_baseline (ordering_functions k serial_target).
Proof.
  destruct t as [[] [] [] []]; repeat split; reflexivity.
Qed.

(** ** The random-generation callables *)

Ltac run_monad := unfold mbind, M_bind, mret, M_ret, lift_option in *.

Lemma for_loop_stores (alphabet : list byte) (body : nat -> M generation_state unit) :
  stores_from alphabet body ->
  forall count start st, (start + count <= length (buffer st))%nat ->
    exists st', for_loop start count body st = Some (tt, st')
      /\ length (buffer st') = length (buffer st)
      /\ (forall j, (j < start \/ start + count <= j)%nat ->
            buffer st' !! j = buffer st !! j)
      /\ (forall j, (start <= j < start + count)%nat ->
            exists c, buffer st' !! j = Some c /\ c ∈ alphabet).
Proof.
  intros Hbody count. induction count as [| count IH]; intros start st Hfit.
  - exists st. simpl. split; [reflexivity |]. split; [reflexivity |].
    split; [reflexivity |]. intros j Hj. lia.
  - destruct (Hbody start st) as (c & st1 & Hrun & Hc & Hbuf); [lia |].
    destruct (IH (S start) st1) as (st2 & Hloop & Hlen & Hout & Hin).
    { rewrite Hbuf, length_insert. lia. }
    exists st2. simpl. run_monad. rewrite Hrun, Hloop.
    rewrite Hbuf, length_insert in Hlen.
    split; [reflexivity |]. split; [exact Hlen |]. split.
    + intros j Hj. rewrite Hout by lia. rewrite Hbuf.
      apply list_lookup_insert_ne. lia.
    + intros j Hj. destruct (decide (j = start)) as [-> | Hne].
      * exists c. split; [| exact Hc]. rewrite Hout by lia. rewrite Hbuf.
        apply list_lookup_insert_eq. lia.
      * apply Hin. lia.
Qed.

(** A loop of such iterations over the first [count] indices meets the
    documented contract of a fill. *)
Lemma for_loop_fills (alphabet : list byte) (body : nat -> M generation_state unit)
    (count : nat) (st : generation_state) :
  stores_from alphabet body ->
  (count <= length (buffer st))%nat ->
  exists st', for_loop 0 count body st = Some (tt, st')
    /\ length (buffer st') = length (buffer st)
    /\ drop count (buffer st') = drop count (buffer st)
    /\ Forall (fun c => c ∈ alphabet) (take count (buffer st')).
Proof.
  intros Hbody Hfit.
  destruct (for_loop_stores alphabet body Hbody count 0%nat st) as (st' & Hrun & Hlen & Hout & Hin);
    [lia |].
  exists st'. split; [exact Hrun |]. split; [exact Hlen |]. split.
  - apply list_eq. intros j. rewrite !lookup_drop. apply Hout. lia.
  - apply Forall_lookup. intros j c Hj.
    apply lookup_take_Some in Hj as [Hj Hlt].
    destruct (Hin j) as (c' & Hc' & Hmem); [lia |]. congruence.
Qed.

(** The divisor of ["std::rand % uint8"] and the indices it produces. *)
Lemma uint8_index_in_bounds (alphabet : string_view) (r : Z) :
  to_uint8 (Z.of_nat (length alphabet)) <> 0 -> 0 <= r ->
  exists index c,
    int_rem r (to_uint8 (Z.of_nat (length alphabet))) = Some index
    /\ 0 <= index < Z.of_nat (length alphabet)
    /\ string_view_at alphabet index = Some c.
Proof.
  intros Hdiv Hr. unfold to_uint8 in *.
  set (d := Z.of_nat (length alphabet) mod 256) in *.
  assert (Hd : 0 < d <= Z.of_nat (length alphabet)).
  { pose proof (Z.mod_pos_bound (Z.of_nat (length alphabet)) 256 ltac:(lia)).
    pose proof (Z.mod_le (Z.of_nat (length alphabet)) 256 ltac:(lia) ltac:(lia)).
    fold d in H, H0. lia. }
  assert (Hrem : 0 <= Z.rem r d < d).
  { rewrite Z.rem_mod_nonneg by lia. apply Z.mod_pos_bound. lia. }
  assert (Hlook : is_Some (alphabet !! Z.to_nat (Z.rem r d))).
  { apply lookup_lt_is_Some. lia. }
  destruct Hlook as [c Hc].
  exists (Z.rem r d), c. unfold int_rem, string_view_at.
  rewrite (proj2 (Z.eqb_neq d 0)) by lia.
  split; [reflexivity |]. split; [lia |].
  rewrite Z.mod_small; [exact Hc |].
  unfold size_t_modulus. pose proof (Z.mod_pos_bound (Z.of_nat (length alphabet)) 256 ltac:(lia)).
  fold d in H. lia.
Qed.

Lemma std_rand_uint8_stores (alphabet : string_view) :
  to_uint8 (Z.of_nat (length alphabet)) <> 0 ->
  stores_from alphabet (fun i =>
    r ← std_rand;
    index ← lift_option (int_rem r (to_uint8 (Z.of_nat (length alphabet))));
    c ← lift_option (string_view_at alphabet index);
    buffer_store i c).
Proof.
  intros Hdiv i st Hi.
  set (r := Z.of_N (rand_source st (rand_calls st)) mod (RAND_MAX + 1)).
  destruct (uint8_index_in_bounds alphabet r Hdiv) as (index & c & Hrem & Hrange & Hat).
  { apply Z.mod_pos_bound. unfold RAND_MAX. lia. }
  exists c. eexists. run_monad. unfold std_rand. fold r.
  rewrite Hrem, Hat. unfold buffer_store. simpl.
  rewrite (proj2 (Nat.ltb_lt _ _) Hi).
  split; [reflexivity |]. split; [| reflexivity].
  apply list_elem_of_lookup. unfold string_view_at in Hat. eauto.
Qed.

Lemma fill_from_alphabet_stores (alphabet : list byte) :
  alphabet <> [] ->
  stores_from alphabet (fun i =>
    draw ← global_random_generator;
    c ← lift_option (alphabet !! (N.to_nat draw mod length alphabet)%nat);
    buffer_store i c).
Proof.
  intros Hne i st Hi.
  set (draw := generator_source st (generator_calls st)).
  assert (Hlook : is_Some (alphabet !! (N.to_nat draw mod length alphabet)%nat)).
  { apply lookup_lt_is_Some. apply Nat.mod_upper_bound.
    destruct alphabet; [congruence | simpl; lia]. }
  destruct Hlook as [c Hc].
  exists c. eexists. run_monad. unfold global_random_generator. fold draw.
  rewrite Hc. unfold buffer_store. simpl.
  rewrite (proj2 (Nat.ltb_lt _ _) Hi).
  split; [reflexivity |]. split; [| reflexivity].
  apply list_elem_of_lookup. eauto.
Qed.

Lemma generate_std_rand_uint8_fills (token_length : nat) (alphabet : string_view)
    (st : generation_state) :
  to_uint8 (Z.of_nat (length alphabet)) <> 0 ->
  (token_length <= length (buffer st))%nat ->
  fills_prefix (generate_std_rand_uint8 token_length) token_length alphabet st.
Proof.
  intros Hdiv Hfit.
  destruct (for_loop_fills alphabet _ token_length st (std_rand_uint8_stores alphabet Hdiv) Hfit)
    as (st' & Hrun & Hrest).
  exists st'. split; [| exact Hrest].
  unfold generate_std_rand_uint8. cbv zeta. run_monad. now rewrite Hrun.
Qed.

Lemma fill_from_alphabet_fills (count : nat) (alphabet : list byte) (st : generation_state) :
  alphabet <> [] ->
  (count <= length (buffer st))%nat ->
  exists st', fill_from_alphabet count alphabet st = Some (tt, st')
    /\ length (buffer st') = length (buffer st)
    /\ drop count (buffer st') = drop count (buffer st)
    /\ Forall (fun c => c ∈ alphabet) (take count (buffer st')).
Proof.
  intros Hne Hfit.
  exact (for_loop_fills alphabet _ count st (fill_from_alphabet_stores alphabet Hne) Hfit).
Qed.

Lemma generate_uniform_int_uint8_fills (token_length : nat) (alphabet : string_view)
    (st : generation_state) :
  alphabet <> [] ->
  (token_length <= length (buffer st))%nat ->
  fills_prefix (generate_uniform_int_uint8 token_length) token_length alphabet st.
Proof.
  intros Hne Hfit.
  destruct (fill_from_alphabet_fills token_length alphabet st Hne Hfit) as (st' & Hrun & Hrest).
  exists st'. split; [| exact Hrest].
  unfold generate_uniform_int_uint8, randomize_string.
  destruct (Nat.eqb_spec (length alphabet) 0) as [Hzero | _].
  - destruct alphabet; [congruence | discriminate].
  - rewrite take_ge by lia. run_monad. now rewrite Hrun.
Qed.

Lemma generate_sz_randomize_fills (token_length : nat) (alphabet : string_view)
    (st : generation_state) :
  alphabet <> [] ->
  (token_length <= length (buffer st))%nat ->
  fills_prefix (generate_sz_randomize token_length) token_length alphabet st.
Proof.
  intros Hne Hfit.
  destruct (fill_from_alphabet_fills token_length alphabet st Hne Hfit) as (st' & Hrun & Hrest).
  exists st'. split; [| exact Hrest].
  unfold generate_sz_randomize, sz_randomize.
  destruct (Nat.eqb_spec (length alphabet) 0) as [Hzero | _].
  - destruct alphabet; [congruence | discriminate].
  - run_monad. now rewrite Hrun.
Qed.

(** Building the registry always succeeds and leaves a buffer of at least
    [token_length] bytes, whose earlier contents are kept. *)
Lemma random_generation_functions_reserves (token_length : nat) (st0 : generation_state) :
  exists st1,
    random_generation_functions token_length st0
      = Some (random_generation_registry token_length, st1)
    /\ (token_length <= length (buffer st1))%nat
    /\ take (length (buffer st0)) (buffer st1) = buffer st0.
Proof.
  unfold random_generation_functions, buffer_reserve. run_monad.
  eexists. split; [reflexivity |].
  destruct (Nat.ltb_spec (length (buffer st0)) token_length); simpl.
  - rewrite length_app, length_replicate. split; [lia |].
    now rewrite take_app_length.
  - split; [lia | now rewrite take_ge].
Qed.

(** No callable can leave only bytes of an empty alphabet in a prefix
    that has at least one byte. *)
Lemma fills_prefix_alphabet_nonempty (f : unary_function_t) (token_length : nat)
    (alphabet : string_view) (st : generation_state) :
  (1 <= token_length <= length (buffer st))%nat ->
  fills_prefix f token_length alphabet st ->
  alphabet <> [].
Proof.
  intros Hfit (st' & _ & Hlen & _ & Hall) ->.
  destruct (buffer st') as [| x rest]; [simpl in Hlen; lia |].
  destruct token_length as [| n]; [lia |].
  simpl in Hall. inversion Hall as [| ? ? Hx _]. now apply elem_of_nil in Hx.
Qed.

(** C4, as stated, fails: on the 256-byte alphabet of all byte values the
    divisor of ["std::rand % uint8"] is zero and a call producing one byte
    has no defined result; and on the empty alphabet no callable can
    produce a byte of the alphabet. *)
Lemma std_rand_uint8_undefined_on_byte_alphabet :
  exists fs st,
    random_generation_functions 1 initial_state = Some (fs, st)
    /\ (exists v, fs !! 0%nat = Some v
          /\ function v byte_alphabet st = None
          /\ ~ fills_prefix (function v) 1 byte_alphabet st)
    /\ (forall v, v ∈ fs -> ~ fills_prefix (function v) 1 [] st).
Proof.
  eexists. eexists. split; [reflexivity |]. split.
  - eexists. split; [reflexivity |].
    assert (Hnone : generate_std_rand_uint8 1 byte_alphabet
                      {| buffer := [x00]; rand_source := N.of_nat; rand_calls := 0;
                         generator_source := N.of_nat; generator_calls := 0 |} = None)
      by (vm_compute; reflexivity).
    split; [exact Hnone |].
    intros (st' & Hrun & _). simpl in Hrun. rewrite Hnone in Hrun. discriminate.
  - intros v _ Hfills.
    apply (fills_prefix_alphabet_nonempty (function v) 1 [] _) in Hfills;
      [congruence | simpl; lia].
Qed.

Lemma generate_std_rand_uint8_zero_divisor (token_length : nat) (alphabet : string_view)
    (st : generation_state) :
  to_uint8 (Z.of_nat (length alphabet)) = 0 ->
  generate_std_rand_uint8 (S token_length) alphabet st = None.
Proof.
  intros Hzero. unfold generate_std_rand_uint8. cbv zeta. simpl for_loop.
  run_monad. unfold std_rand. rewrite Hzero. reflexivity.
Qed.

(** C4, amended. Each of the three callables built by
    [random_generation_functions], called on any later state of the shared
    buffer, returns [token_length], keeps the size of the buffer, leaves
    the bytes at index [token_length] and above unchanged, and leaves in
    the first [token_length] positions only bytes of the alphabet: the
    ["std::rand % uint8"] callable for every alphabet whose size is not a
    multiple of 256, the two callables that delegate to the fill
    primitives for every alphabet that is not empty, 256-byte alphabets
    included. For a token length of at least one these conditions are also
    needed. The two delegating callables are settled against the
    documented contract of the fill primitives. *)
Theorem random_generation_fills_prefix
    (token_length : nat) (st0 st1 st : generation_state)
    (fs : tracked_unary_functions_t) (alphabet : string_view) :
  random_generation_functions token_length st0 = Some (fs, st1) ->
  (length (buffer st1) <= length (buffer st))%nat ->
  function <$> fs
    = [ generate_std_rand_uint8 token_length;
        generate_uniform_int_uint8 token_length;
        generate_sz_randomize token_length ]
  /\ (Z.of_nat (length alphabet) mod 256 <> 0 ->
      fills_prefix (generate_std_rand_uint8 token_length) token_length alphabet st)
  /\ (alphabet <> [] ->
      fills_prefix (generate_uniform_int_uint8 token_length) token_length alphabet st
      /\ fills_prefix (generate_sz_randomize token_length) token_length alphabet st)
  /\ ((1 <= token_length)%nat ->
      (fills_prefix (generate_std_rand_uint8 token_length) token_length alphabet st ->
       Z.of_nat (length alphabet) mod 256 <> 0)
      /\ (forall v, v ∈ fs ->
            fills_prefix (function v) token_length alphabet st -> alphabet <> [])).
Proof.
  intros Hbuild Hlater.
  destruct (random_generation_functions_reserves token_length st0) as (st1' & Hbuild' & Hfit & _).
  rewrite Hbuild' in Hbuild. inversion Hbuild. subst fs st1'. clear Hbuild Hbuild'.
  assert (Hroom : (token_length <= length (buffer st))%nat) by lia.
  split; [reflexivity |]. split; [| split].
  - intros Hsize. now apply generate_std_rand_uint8_fills.
  - intros Hne. split.
    + now apply generate_uniform_int_uint8_fills.
    + now apply generate_sz_randomize_fills.
  - intros Hpos. split.
    + intros (st' & Hrun & _) Hzero.
      destruct token_length as [| n]; [lia |].
      rewrite (generate_std_rand_uint8_zero_divisor n alphabet st Hzero) in Hrun.
      discriminate.
    + intros v _. apply fills_prefix_alphabet_nonempty. lia.
Qed.

Lemma random_generation_fills_prefix_witness :
  exists st1,
    random_generation_functions 32 initial_state
      = Some (random_generation_registry 32, st1)
    /\ fills_prefix (generate_std_rand_uint8 32) 32 (literal "ab") st1
    /\ fills_prefix (generate_uniform_int_uint8 32) 32 byte_alphabet st1
    /\ fills_prefix (generate_sz_randomize 32) 32 byte_alphabet st1.
Proof.
  eexists. split; [reflexivity |].
  destruct (random_generation_fills_prefix 32 initial_state _ _
              (random_generation_registry 32) (literal "ab") eq_refl (Nat.le_refl _))
    as (_ & Hrand & _).
  destruct (random_generation_fills_prefix 32 initial_state _ _
              (random_generation_registry 32) byte_alphabet eq_refl (Nat.le_refl _))
    as (_ & _ & Hfill & _).
  split; [apply Hrand; vm_compute; discriminate |].
  apply Hfill. discriminate.
Defined.

(** C10, as stated, fails: a size between 1 and 255 is not needed. On
    an alphabet of 257 bytes the divisor is 1, every index is 0, and a call
    has a result. *)
Lemma uint8_bound_not_necessary :
  length wide_alphabet = 257%nat
  /\ ~ (1 <= length wide_alphabet <= 255)%nat
  /\ to_uint8 (Z.of_nat (length wide_alphabet)) = 1
  /\ (forall r, 0 <= r ->
        exists index c,
          int_rem r (to_uint8 (Z.of_nat (length wide_alphabet))) = Some index
          /\ 0 <= index < Z.of_nat (length wide_alphabet)
          /\ string_view_at wide_alphabet index = Some c)
  /\ is_Some (generate_std_rand_uint8 2 wide_alphabet
                {| buffer := [x00; x00]; rand_source := N.of_nat; rand_calls := 0;
                   generator_source := N.of_nat; generator_calls := 0 |}).
Proof.
  split; [reflexivity |]. split; [simpl; lia |]. split; [reflexivity |]. split.
  - intros r Hr. apply uint8_index_in_bounds; [discriminate | exact Hr].
  - destruct (generate_std_rand_uint8_fills 2 wide_alphabet
                {| buffer := [x00; x00]; rand_source := N.of_nat; rand_calls := 0;
                   generator_source := N.of_nat; generator_calls := 0 |})
      as (st' & Hrun & _); [discriminate | simpl; lia |].
    rewrite Hrun. eauto.
Qed.

(** C10, amended. In ["std::rand % uint8"] the divisor is the size of the
    alphabet cast to 8 bits, that is the size modulo 256. Whenever the size
    is not a multiple of 256 the divisor is not zero, every index
    [r % divisor] computed from a non-negative [r] is below the size of the
    alphabet, so the division and the alphabet access are defined and the
    call returns; this covers every alphabet of 1 to 255 bytes, for which
    the divisor is the size itself. Whenever the size is a multiple of 256,
    zero included, the divisor is zero, the remainder is undefined and a
    call producing at least one byte has no result. *)
Theorem std_rand_uint8_divisor
    (alphabet : string_view) (r : Z) (token_length : nat) (st : generation_state) :
  0 <= r ->
  (token_length <= length (buffer st))%nat ->
  to_uint8 (Z.of_nat (length alphabet)) = Z.of_nat (length alphabet) mod 256
  /\ ((1 <= length alphabet <= 255)%nat ->
      to_uint8 (Z.of_nat (length alphabet)) = Z.of_nat (length alphabet)
      /\ Z.of_nat (length alphabet) mod 256 <> 0)
  /\ (Z.of_nat (length alphabet) mod 256 <> 0 ->
      to_uint8 (Z.of_nat (length alphabet)) <> 0
      /\ (exists index c,
            int_rem r (to_uint8 (Z.of_nat (length alphabet))) = Some index
            /\ 0 <= index < Z.of_nat (length alphabet)
            /\ string_view_at alphabet index = Some c)
      /\ is_Some (generate_std_rand_uint8 token_length alphabet st))
  /\ (Z.of_nat (length alphabet) mod 256 = 0 ->
      to_uint8 (Z.of_nat (length alphabet)) = 0
      /\ int_rem r (to_uint8 (Z.of_nat (length alphabet))) = None
      /\ generate_std_rand_uint8 (S token_length) alphabet st = None).
Proof.
  intros Hr Hfit.
  split; [reflexivity |]. split; [| split].
  - intros Hsize. unfold to_uint8. rewrite Z.mod_small by lia. lia.
  - intros Hdiv. split; [exact Hdiv |].
    split; [now apply uint8_index_in_bounds |].
    destruct (generate_std_rand_uint8_fills token_length alphabet st Hdiv Hfit)
      as (st' & Hrun & _).
    rewrite Hrun. eauto.
  - intros Hzero.
    assert (Hcast : to_uint8 (Z.of_nat (length alphabet)) = 0) by exact Hzero.
    split; [exact Hcast |]. split.
    + rewrite Hcast. reflexivity.
    + now apply generate_std_rand_uint8_zero_divisor.
Qed.

Lemma std_rand_uint8_divisor_witness :
  (exists index c,
      int_rem 7 (to_uint8 (Z.of_nat (length (literal "abc")))) = Some index
      /\ 0 <= index < 3
      /\ string_view_at (literal "abc") index = Some c)
  /\ to_uint8 (Z.of_nat (length byte_alphabet)) = 0
  /\ generate_std_rand_uint8 1 byte_alphabet initial_state = None.
Proof.
  destruct (std_rand_uint8_divisor (literal "abc") 7 0 initial_state)
    as (_ & Hbound & Hdefined & _).
  - lia.
  - simpl. lia.
  - destruct (std_rand_uint8_divisor byte_alphabet 7 0 initial_state)
      as (_ & _ & _ & Hzero).
    + lia.
    + simpl. lia.
    + destruct Hbound as [_ Hdiv]; [simpl; lia |].
      destruct (Hdefined Hdiv) as (_ & Hindex & _).
      destruct (Hzero eq_refl) as (Hcast & _ & Hnone).
      split; [exact Hindex |]. split; [exact Hcast | exact Hnone].
Defined.

(** ** The driver *)

Section DriverProperties.
Variable k : string_kernels.
Variable t : build_target.
Variable env : environment.

Lemma bind_run {St A B} (m : M St A) (f : A -> M St B) (st st' : St) (x : A) :
  m st = Some (x, st') -> (m ≫= f) st = f x st'.
Proof. intros Hm. unfold mbind, M_bind. now rewrite Hm. Qed.

Lemma bind_fail {St A B} (m : M St A) (f : A -> M St B) (st : St) :
  m st = None -> (m ≫= f) st = None.
Proof. intros Hm. unfold mbind, M_bind. now rewrite Hm. Qed.

Lemma bench_empty (log : execution) : bench k t [] log = Some (tt, log).
Proof. reflexivity. Qed.

Lemma bench_nonempty (strings : list string_view) (log : execution) :
  strings <> [] ->
  bench k t strings log
  = Some (tt, log ++
      [ bench_unary_functions strings (checksum_functions k t);
        bench_unary_functions strings (hashing_functions k);
        bench_binary_functions strings (equality_functions k t);
        bench_binary_functions strings (ordering_functions k t);
        bench_unary_functions strings
          [ tracked "std::string -> std::string_view"
              (stateless (fun s => Z.of_nat (length s))) ];
        bench_unary_functions strings
          [ tracked "sz::string -> std::string_view"
              (stateless (fun s => Z.of_nat (length s))) ] ]).
Proof.
  intros Hne. unfold bench.
  destruct strings as [| s rest]; [congruence |].
  cbn [length Nat.eqb]. unfold bench_dereferencing, emit. run_monad.
  now rewrite <- !app_assoc.
Qed.

(** [bench] never fails and only appends to the log. *)
Lemma bench_run (strings : list string_view) (log : execution) :
  bench k t strings log = Some (tt, log ++ bench_log k t strings).
Proof.
  unfold bench_log, events_of.
  destruct strings as [| s rest].
  - rewrite !bench_empty. simpl. now rewrite app_nil_r.
  - rewrite !bench_nonempty by discriminate. reflexivity.
Qed.

Lemma for_each_run {A} (items : list A) (body : A -> M execution unit)
    (added : A -> execution) :
  (forall x log, body x log = Some (tt, log ++ added x)) ->
  forall log, for_each items body log = Some (tt, log ++ flat_map added items).
Proof.
  intros Hbody. induction items as [| x items IH]; intros log; simpl.
  - unfold mret, M_ret. now rewrite app_nil_r.
  - rewrite (bind_run _ _ _ _ _ (Hbody x log)), IH. now rewrite app_assoc.
Qed.

Lemma bench_on_input_data_run (argc : Z) (argv : list string_view)
    (d : dataset_t) (log : execution) :
  prepare_benchmark_environment env argc argv = Some d ->
  bench_on_input_data k t env argc argv log
  = Some (tt, log
      ++ words_header :: bench_log k t (tokens d)
      ++ lines_header :: bench_log k t (lines d)
      ++ text_header :: bench_log k t [text d]
      ++ flat_map (fun n => length_header n
                              :: bench_log k t (filter_by_length (tokens d) n))
           [1; 2; 3; 4; 5; 6; 7; 8; 16; 32]%nat).
Proof.
  intros Hload. unfold bench_on_input_data. rewrite Hload.
  erewrite bind_run by reflexivity.
  erewrite bind_run by reflexivity.
  erewrite bind_run by apply bench_run.
  erewrite bind_run by reflexivity.
  erewrite bind_run by apply bench_run.
  erewrite bind_run by reflexivity.
  erewrite bind_run by apply bench_run.
  erewrite (for_each_run token_lengths _
              (fun n => length_header n
                          :: bench_log k t (filter_by_length (tokens d) n))).
  - unfold token_lengths. f_equal. f_equal.
    repeat (rewrite <- app_assoc; simpl). reflexivity.
  - intros n log'. erewrite bind_run by reflexivity.
    rewrite bench_run. f_equal. f_equal. now rewrite <- app_assoc.
Qed.

Lemma bench_on_input_data_fail (argc : Z) (argv : list string_view) (log : execution) :
  prepare_benchmark_environment env argc argv = None ->
  bench_on_input_data k t env argc argv log = None.
Proof.
  intros Hload. unfold bench_on_input_data. rewrite Hload. reflexivity.
Qed.

End DriverProperties.

Lemma reported_no_runner_calls (runner : event -> list benchmark_result) (log : list event) :
  filter (fun e => is_runner_call e = true) log = [] -> reported runner log = [].
Proof.
  unfold reported. induction log as [| e log IH]; [reflexivity |].
  rewrite filter_cons. simpl. destruct (is_runner_call e) eqn:He.
  - rewrite decide_True by reflexivity. discriminate.
  - rewrite decide_False by discriminate. exact IH.
Qed.

(** C5. On a corpus with no element [bench] returns at once: it adds no
    event to the execution, so no runner and no tracked function is
    invoked, whatever the runners do the bytes processed and the mismatches
    reported for the corpus sum to zero, and whatever follows runs from the
    unchanged log; a dataset with no tokens is still driven through all
    thirteen corpora, with the lines and the whole text benchmarked. *)
Theorem bench_empty_corpus
    (k : string_kernels) (t : build_target) (env : environment)
    (runner : event -> list benchmark_result)
    (strings : list string_view) (log : execution) :
  length strings = 0%nat ->
  bench k t strings log = Some (tt, log)
  /\ events_of (bench k t strings) = Some []
  /\ filter (fun e => is_runner_call e = true) (bench_log k t strings) = []
  /\ total_bytes_processed (reported runner (bench_log k t strings)) = 0
  /\ total_mismatches (reported runner (bench_log k t strings)) = 0
  /\ (forall (A : Type) (next : M execution A),
        (bench k t strings ≫= fun _ => next) log = next log)
  /\ (forall argc argv d,
        prepare_benchmark_environment env argc argv = Some d ->
        tokens d = strings ->
        events_of (bench_on_input_data k t env argc argv)
        = Some ([words_header; lines_header] ++ bench_log k t (lines d)
                ++ [text_header] ++ bench_log k t [text d]
                ++ map length_header [1; 2; 3; 4; 5; 6; 7; 8; 16; 32]%nat)).
Proof.
  intros Hlen. apply nil_length_inv in Hlen. subst strings.
  split; [reflexivity |]. split; [reflexivity |]. split; [reflexivity |].
  split; [reflexivity |]. split; [reflexivity |]. split; [reflexivity |].
  intros argc argv d Hload Htokens. unfold events_of.
  rewrite (bench_on_input_data_run k t env argc argv d [] Hload).
  rewrite Htokens. reflexivity.
Qed.

Lemma bench_empty_corpus_witness :
  bench reference_kernels serial_target [] [words_header] = Some (tt, [words_header])
  /\ events_of (bench reference_kernels serial_target []) = Some [].
Proof.
  destruct (bench_empty_corpus reference_kernels serial_target cat_dog_environment
              (fun _ => []) [] [words_header]) as (Hrun & Hevents & _).
  - reflexivity.
  - split; [exact Hrun | exact Hevents].
Defined.

(** C6. On a corpus with at least one element [bench] invokes, in this
    order and nothing else: the unary runner on the checksum registry, the
    unary runner on the hashing registry, the binary runner on the equality
    registry, the binary runner on the ordering registry, and the size
    micro-check once for [std::string] and once for [sz::string]. On a
    loaded dataset [bench_on_input_data] drives, each after its header, the
    tokens, the lines, the whole text as a one-element corpus, and the
    tokens filtered to the lengths 1, 2, 3, 4, 5, 6, 7, 8, 16, 32 in that
    order. *)
Theorem bench_category_and_corpus_order
    (k : string_kernels) (t : build_target) (env : environment)
    (strings : list string_view) (argc : Z) (argv : list string_view) (d : dataset_t) :
  strings <> [] ->
  prepare_benchmark_environment env argc argv = Some d ->
  events_of (bench k t strings)
  = Some [ bench_unary_functions strings (checksum_functions k t);
           bench_unary_functions strings (hashing_functions k);
           bench_binary_functions strings (equality_functions k t);
           bench_binary_functions strings (ordering_functions k t);
           bench_unary_functions strings
             [ tracked "std::string -> std::string_view"
                 (stateless (fun s => Z.of_nat (length s))) ];
           bench_unary_functions strings
             [ tracked "sz::string -> std::string_view"
                 (stateless (fun s => Z.of_nat (length s))) ] ]
  /\ events_of (bench_on_input_data k t env argc argv)
     = Some (flat_map (fun '(header, corpus) => header :: bench_log k t corpus)
               [ (words_header, tokens d);
                 (lines_header, lines d);
                 (text_header, [text d]);
                 (length_header 1, filter_by_length (tokens d) 1);
                 (length_header 2, filter_by_length (tokens d) 2);
                 (length_header 3, filter_by_length (tokens d) 3);
                 (length_header 4, filter_by_length (tokens d) 4);
                 (length_header 5, filter_by_length (tokens d) 5);
                 (length_header 6, filter_by_length (tokens d) 6);
                 (length_header 7, filter_by_length (tokens d) 7);
                 (length_header 8, filter_by_length (tokens d) 8);
                 (length_header 16, filter_by_length (tokens d) 16);
                 (length_header 32, filter_by_length (tokens d) 32) ]).
Proof.
  intros Hne Hload. split.
  - unfold events_of. now rewrite (bench_nonempty k t strings [] Hne).
  - unfold events_of.
    rewrite (bench_on_input_data_run k t env argc argv d [] Hload).
    reflexivity.
Qed.

Lemma bench_category_and_corpus_order_witness :
  (exists checksum hashing equality ordering std_size sz_size,
      events_of (bench reference_kernels serial_target (tokens cat_dog_dataset))
      = Some [ bench_unary_functions (tokens cat_dog_dataset) checksum;
               bench_unary_functions (tokens cat_dog_dataset) hashing;
               bench_binary_functions (R := bool) (tokens cat_dog_dataset) equality;
               bench_binary_functions (R := sz_ordering_t) (tokens cat_dog_dataset) ordering;
               bench_unary_functions (tokens cat_dog_dataset) std_size;
               bench_unary_functions (tokens cat_dog_dataset) sz_size ])
  /\ is_Some (events_of (bench_on_input_data reference_kernels serial_target
                           cat_dog_environment 2 [literal "bench_token"; literal "data.txt"])).
Proof.
  destruct (bench_category_and_corpus_order reference_kernels serial_target
              cat_dog_environment (tokens cat_dog_dataset)
              2 [literal "bench_token"; literal "data.txt"] cat_dog_dataset)
    as [Hbench Hdata].
  - discriminate.
  - reflexivity.
  - split.
    + do 6 eexists. exact Hbench.
    + rewrite Hdata. eauto.
Defined.

Lemma main_run (k : string_kernels) (t : build_target) (env : environment)
    (argc : Z) (argv : list string_view) (log : execution) :
  main k t env argc argv log
  = match (if argc <? 2 then bench_on_synthetic_data
           else bench_on_input_data k t env argc argv)
          (log ++ [printf (line "StringZilla. Starting token-level benchmarks.") []]
               ++ [printf (line "- Seconds per benchmark: %zu") [seconds_per_benchmark env]])
    with
    | Some (_, log') => Some (0, log' ++ [printf (line "All benchmarks passed.") []])
    | None => None
    end.
Proof.
  unfold main.
  erewrite bind_run by reflexivity.
  erewrite bind_run by reflexivity.
  rewrite <- app_assoc.
  unfold mbind at 1. unfold M_bind.
  match goal with
  | |- match ?m with _ => _ end = _ => destruct m as [[[] log'] |]; reflexivity
  end.
Qed.

(** C7. Started with fewer than two [argv] entries the process runs the
    synthetic-data mode, which does nothing: the only events are the two
    opening lines and the closing line, no runner is invoked and the
    dataset is never loaded. Every run of [main] that completes returns 0,
    and [main] completes exactly when no dataset is asked for or the
    dataset loads. *)
Theorem main_synthetic_mode_and_exit_code
    (k : string_kernels) (t : build_target) (env : environment)
    (argc : Z) (argv : list string_view) (log : execution) :
  argc < 2 ->
  bench_on_synthetic_data log = Some (tt, log)
  /\ main k t env argc argv log
     = Some (0, log ++
         [ printf (line "StringZilla. Starting token-level benchmarks.") [];
           printf (line "- Seconds per benchmark: %zu") [seconds_per_benchmark env];
           printf (line "All benchmarks passed.") [] ])
  /\ (forall argc' argv' log' code log'',
        main k t env argc' argv' log' = Some (code, log'') -> code = 0)
  /\ (forall argc' argv' log',
        is_Some (main k t env argc' argv' log')
        <-> argc' < 2 \/ is_Some (prepare_benchmark_environment env argc' argv')).
Proof.
  intros Hargc. split; [reflexivity |]. split; [| split].
  - rewrite main_run. rewrite (proj2 (Z.ltb_lt argc 2) Hargc).
    unfold bench_on_synthetic_data, mret, M_ret.
    now rewrite <- !app_assoc.
  - intros argc' argv' log' code log''. rewrite main_run.
    match goal with
    | |- match ?m with _ => _ end = _ -> _ => destruct m as [[[] log1] |]
    end; [| discriminate].
    now inversion 1.
  - intros argc' argv' log'. rewrite main_run.
    destruct (Z.ltb_spec argc' 2) as [Hlt | Hge].
    + unfold bench_on_synthetic_data, mret, M_ret. split; [now left | eauto].
    + destruct (prepare_benchmark_environment env argc' argv') as [d |] eqn:Hload.
      * rewrite (bench_on_input_data_run k t env argc' argv' d _ Hload).
        split; [right; eauto | eauto].
      * rewrite (bench_on_input_data_fail k t env argc' argv' _ Hload).
        split; [intros [? ?]; discriminate | intros [? | [? ?]]; [lia | discriminate]].
Qed.

Lemma main_synthetic_mode_and_exit_code_witness :
  main reference_kernels serial_target cat_dog_environment 1 [literal "bench_token"] []
  = Some (0, [ printf (line "StringZilla. Starting token-level benchmarks.") [];
               printf (line "- Seconds per benchmark: %zu") [5];
               printf (line "All benchmarks passed.") [] ]).
Proof.
  destruct (main_synthetic_mode_and_exit_code reference_kernels serial_target
              cat_dog_environment 1 [literal "bench_token"] []) as (_ & Hmain & _).
  - lia.
  - exact Hmain.
Defined.

(** * Further properties of the registries and the driver *)

(** ** Ordering *)

Lemma lexicographic_order_flip (a c : list byte) :
  lexicographic_order c a = flip_order (lexicographic_order a c).
Proof.
  revert c. induction a as [| x a IH]; intros [| y c]; simpl; try reflexivity.
  destruct (Z.ltb_spec (byte_value x) (byte_value y)),
           (Z.ltb_spec (byte_value y) (byte_value x)); try reflexivity; try lia.
  apply IH.
Qed.

Lemma lexicographic_order_trans (a b c : list byte) :
  lexicographic_order a b = sz_less_k ->
  lexicographic_order b c = sz_less_k ->
  lexicographic_order a c = sz_less_k.
Proof.
  revert b c. induction a as [| x a IH]; intros [| y b] [| z c]; simpl;
    try discriminate; try reflexivity.
  destruct (Z.ltb_spec (byte_value x) (byte_value y)),
           (Z.ltb_spec (byte_value y) (byte_value x)),
           (Z.ltb_spec (byte_value y) (byte_value z)),
           (Z.ltb_spec (byte_value z) (byte_value y)),
           (Z.ltb_spec (byte_value x) (byte_value z)),
           (Z.ltb_spec (byte_value z) (byte_value x));
    try discriminate; try reflexivity; try lia.
  apply IH.
Qed.

(** X1. The ["std::string_view.compare"] entry of [ordering_functions] is
    defined on every pair and is the lexicographic byte-wise order; it
    answers equal exactly on identical strings. *)
Theorem compare_entry_lexicographic
    (k : string_kernels) (t : build_target) (a c : string_view) :
  entry_named "std::string_view.compare" (ordering_functions k t)
    = Some ordering_std_string_view_compare
  /\ ordering_std_string_view_compare a c = Some (lexicographic_order a c)
  /\ (ordering_std_string_view_compare a c = Some sz_equal_k <-> a = c).
Proof.
  split; [apply ordering_registry_entries |].
  rewrite ordering_std_string_view_compare_lexicographic.
  split; [reflexivity |].
  rewrite <- lexicographic_order_equal. split; [now inversion 1 | now intros ->].
Qed.

(** X2. The ["std::string_view.compare"] entry is transitive: less on
    (a, b) and on (b, c) gives less on (a, c). *)
Theorem compare_entry_transitive (a b c : string_view) :
  ordering_std_string_view_compare a b = Some sz_less_k ->
  ordering_std_string_view_compare b c = Some sz_less_k ->
  ordering_std_string_view_compare a c = Some sz_less_k.
Proof.
  rewrite !ordering_std_string_view_compare_lexicographic.
  intros Hab Hbc. f_equal.
  apply (lexicographic_order_trans a b c); congruence.
Qed.

Lemma compare_entry_transitive_witness :
  ordering_std_string_view_compare (literal "cat") (literal "dog") = Some sz_less_k.
Proof.
  apply (compare_entry_transitive (literal "cat") (literal "cow") (literal "dog"));
    reflexivity.
Defined.

Lemma ordering_memcmp_flip (a c : string_view) :
  ordering_memcmp c a = flip_order <$> ordering_memcmp a c.
Proof.
  unfold ordering_memcmp. rewrite !memcmp_common_prefix.
  rewrite (Nat.min_comm (length c)), (first_difference_opp a c).
  set (order := first_difference a c _).
  rewrite (Nat.eqb_sym (length c)). simpl. f_equal.
  destruct (Z.eqb_spec order 0) as [He | Hne].
  - replace (- order =? 0) with true by (symmetry; apply Z.eqb_eq; lia). reflexivity.
  - replace (- order =? 0) with false by (symmetry; apply Z.eqb_neq; lia). simpl.
    destruct (Nat.eqb_spec (length a) (length c)) as [Hl | Hl].
    + destruct (Z.ltb_spec order 0), (Z.ltb_spec (- order) 0); (reflexivity || lia).
    + destruct (Nat.ltb_spec (length a) (length c)), (Nat.ltb_spec (length c) (length a));
        (reflexivity || lia).
Qed.

(** X3. Exchanging the arguments of either ordering entry written in
    [ordering_functions] reverses its answer: less becomes greater, greater
    becomes less, equal stays equal. *)
Theorem ordering_entries_flip (a c : string_view) :
  ordering_std_string_view_compare c a
    = flip_order <$> ordering_std_string_view_compare a c
  /\ ordering_memcmp c a = flip_order <$> ordering_memcmp a c.
Proof.
  split; [| apply ordering_memcmp_flip].
  rewrite !ordering_std_string_view_compare_lexicographic. simpl.
  f_equal. apply lexicographic_order_flip.
Qed.

Lemma common_prefix_take (a c : list byte) :
  take (Nat.min (length a) (length c)) a = take (Nat.min (length a) (length c)) c
  <-> a `prefix_of` c \/ c `prefix_of` a.
Proof.
  split.
  - intros Htake. destruct (Nat.le_ge_cases (length a) (length c)) as [Hle | Hge].
    + left. rewrite Nat.min_l in Htake by lia. rewrite take_ge in Htake by lia.
      exists (drop (length a) c). rewrite Htake at 1. now rewrite take_drop.
    + right. rewrite Nat.min_r in Htake by lia. rewrite (take_ge c) in Htake by lia.
      exists (drop (length c) a). rewrite <- Htake at 1. now rewrite take_drop.
  - intros [[rest ->] | [rest ->]]; rewrite length_app.
    + rewrite Nat.min_l by lia. rewrite take_app_length. now rewrite take_ge.
    + rewrite Nat.min_r by lia. rewrite take_app_length. now rewrite take_ge.
Qed.

Lemma ordering_memcmp_order (a c : string_view) :
  ordering_memcmp a c
  = Some (if (length a =? length c)%nat then lexicographic_order a c
          else if bool_decide (take (Nat.min (length a) (length c)) a
                               = take (Nat.min (length a) (length c)) c)
               then sz_equal_k
               else if (length a <? length c)%nat then sz_less_k else sz_greater_k).
Proof.
  destruct (Nat.eqb_spec (length a) (length c)) as [Hlen | Hlen].
  - now apply ordering_memcmp_same_length.
  - unfold ordering_memcmp. rewrite memcmp_common_prefix. f_equal.
    rewrite (proj2 (Nat.eqb_neq _ _) Hlen).
    pose proof (first_difference_zero a c (Nat.min (length a) (length c))
                  ltac:(lia) ltac:(lia)) as Hzero.
    destruct (Z.eqb_spec (first_difference a c (Nat.min (length a) (length c))) 0)
      as [He | Hne]; simpl.
    + rewrite bool_decide_eq_true_2; [reflexivity | now apply Hzero].
    + rewrite bool_decide_eq_false_2; [reflexivity | ]. intros Heq. now apply Hne, Hzero.
Qed.

(** X4. What the ["memcmp"] entry of [ordering_functions] computes, on
    every pair: it is always defined (the compared length never exceeds
    either string); on strings of one size it is the lexicographic order;
    on strings of different sizes it answers equal when they agree on the
    shorter length, and otherwise less or greater according to which
    string is shorter. *)
Theorem ordering_memcmp_characterised
    (k : string_kernels) (t : build_target) (a c : string_view) :
  entry_named "memcmp" (ordering_functions k t) = Some ordering_memcmp
  /\ ordering_memcmp a c
     = Some (if (length a =? length c)%nat then lexicographic_order a c
             else if bool_decide (take (Nat.min (length a) (length c)) a
                                  = take (Nat.min (length a) (length c)) c)
                  then sz_equal_k
                  else if (length a <? length c)%nat then sz_less_k else sz_greater_k).
Proof.
  split; [apply ordering_registry_entries | apply ordering_memcmp_order].
Qed.

(** X5. The ["memcmp"] entry of [ordering_functions] answers equal
    exactly when one of the two strings is a prefix of the other. *)
Theorem ordering_memcmp_equal_iff_prefix (a c : string_view) :
  ordering_memcmp a c = Some sz_equal_k <-> a `prefix_of` c \/ c `prefix_of` a.
Proof.
  rewrite <- common_prefix_take, ordering_memcmp_order.
  destruct (Nat.eqb_spec (length a) (length c)) as [Hlen | Hlen].
  - rewrite <- Hlen, Nat.min_id, !take_ge by lia.
    rewrite <- lexicographic_order_equal. split; [now inversion 1 | now intros ->].
  - case_bool_decide as Htake; [tauto |].
    split; [| tauto]. destruct (length a <? length c)%nat; discriminate.
Qed.

(** X6. On two strings of one size the ["memcmp"] entry of
    [ordering_functions] agrees with the ["std::string_view.compare"]
    entry, both giving the lexicographic order. *)
Theorem ordering_memcmp_same_size_agrees (a c : string_view) :
  length a = length c ->
  ordering_memcmp a c = ordering_std_string_view_compare a c
  /\ ordering_memcmp a c = Some (lexicographic_order a c).
Proof.
  intros Hlen. rewrite ordering_std_string_view_compare_lexicographic.
  split; now apply ordering_memcmp_same_length.
Qed.

Lemma ordering_memcmp_same_size_agrees_witness :
  ordering_memcmp (literal "cat") (literal "dog")
    = ordering_std_string_view_compare (literal "cat") (literal "dog")
  /\ ordering_memcmp (literal "cat") (literal "dog")
     = Some (lexicographic_order (literal "cat") (literal "dog")).
Proof.
  apply (ordering_memcmp_same_size_agrees (literal "cat") (literal "dog")).
  reflexivity.
Defined.

(** ** Equality *)

(** X7. Whatever the kernels compute, every entry of [equality_functions]
    is defined and answers false on two strings of different sizes: the
    size guard decides before a kernel or [memcmp] is called. *)
Theorem equality_entries_reject_different_sizes
    (k : string_kernels) (t : build_target)
    (v : tracked_function_gt (binary_function_t bool)) (a c : string_view) :
  v ∈ equality_functions k t ->
  length a <> length c ->
  function v a c = Some false.
Proof.
  intros Hv Hlen.
  assert (Hguard : (length a =? length c)%nat = false) by now apply Nat.eqb_neq.
  unfold equality_functions, when in Hv.
  destruct (SZ_USE_HASWELL t), (SZ_USE_SKYLAKE t); simpl in Hv;
    rewrite ?elem_of_cons, elem_of_nil in Hv;
    repeat (destruct Hv as [-> | Hv]); try (destruct Hv); simpl;
    rewrite ?Hguard; try reflexivity;
    try (unfold equality_std_string_view, string_view_eq; now rewrite Hguard);
    unfold equality_memcmp; now rewrite Hguard.
Qed.

Lemma equality_entries_reject_different_sizes_witness :
  Some ((length (literal "cat") =? length (literal "cats"))%nat
        && sz_equal_serial reference_kernels (literal "cat") (literal "cats")
             (length (literal "cat")))
  = Some false.
Proof.
  apply (equality_entries_reject_different_sizes reference_kernels serial_target
           (tracked_baseline "sz_equal_serial"
              (fun a b => Some ((length a =? length b)%nat
                                && sz_equal_serial reference_kernels a b (length a)))
              true)
           (literal "cat") (literal "cats")).
  - right. left.
  - simpl. lia.
Defined.

(** X8. Once the three equality kernels compute byte equality on the
    bytes they are allowed to read, every entry of [equality_functions],
    in every build, is defined on every pair, answers true exactly on
    identical strings, answers true on a self-pair, and gives the same
    answer when its arguments are exchanged. *)
Theorem equality_entries_agree_under_kernel_contract
    (k : string_kernels) (t : build_target)
    (v : tracked_function_gt (binary_function_t bool)) (a c : string_view) :
  equal_kernel_correct (sz_equal_serial k) ->
  equal_kernel_correct (sz_equal_haswell k) ->
  equal_kernel_correct (sz_equal_skylake k) ->
  v ∈ equality_functions k t ->
  function v a c = Some (bool_decide (a = c))
  /\ function v a a = Some true
  /\ function v a c = function v c a.
Proof.
  intros Hserial Hhaswell Hskylake Hv.
  rewrite !(equality_functions_agree k t v) by assumption.
  rewrite (bool_decide_eq_true_2 (a = a)) by reflexivity.
  split; [reflexivity |]. split; [reflexivity |].
  f_equal. apply bool_decide_ext. split; congruence.
Qed.

Lemma equality_entries_agree_under_kernel_contract_witness :
  equality_memcmp (literal "cat") (literal "dog")
    = Some (bool_decide (literal "cat" = literal "dog"))
  /\ equality_memcmp (literal "cat") (literal "cat") = Some true
  /\ equality_memcmp (literal "cat") (literal "dog")
     = equality_memcmp (literal "dog") (literal "cat").
Proof.
  apply (equality_entries_agree_under_kernel_contract reference_kernels serial_target
           (tracked "memcmp" equality_memcmp) (literal "cat") (literal "dog")).
  - intros a b n _ _. reflexivity.
  - intros a b n _ _. reflexivity.
  - intros a b n _ _. reflexivity.
  - right. right. left.
Defined.

(** ** Checksum *)

Lemma byte_sum_app (a b : list byte) : byte_sum (a ++ b) = byte_sum a + byte_sum b.
Proof.
  induction a as [| x a IH]; [reflexivity |].
  change (byte_sum ((x :: a) ++ b)) with (byte_value x + byte_sum (a ++ b)).
  change (byte_sum (x :: a)) with (byte_value x + byte_sum a). lia.
Qed.

Lemma byte_sum_permutation (a b : list byte) : a ≡ₚ b -> byte_sum a = byte_sum b.
Proof.
  induction 1 as [| x a b _ IH | x y a | a b c _ IHab _ IHbc].
  - reflexivity.
  - change (byte_value x + byte_sum a = byte_value x + byte_sum b). lia.
  - change (byte_value y + (byte_value x + byte_sum a)
            = byte_value x + (byte_value y + byte_sum a)). lia.
  - congruence.
Qed.

(** X9. The ["std::accumulate"] checksum of every string, of any size,
    is the sum of its byte values reduced modulo 2^64; it lies in the range
    of [std::size_t] and never exceeds 255 times the size of the string. *)
Theorem checksum_std_accumulate_range (s : string_view) :
  checksum_std_accumulate s = byte_sum s mod size_t_modulus
  /\ 0 <= checksum_std_accumulate s < size_t_modulus
  /\ checksum_std_accumulate s <= 255 * Z.of_nat (length s).
Proof.
  rewrite checksum_std_accumulate_modular.
  pose proof (byte_sum_bounds s) as Hb.
  pose proof (Z.mod_pos_bound (byte_sum s) size_t_modulus ltac:(reflexivity)) as Hm.
  pose proof (Z.mod_le (byte_sum s) size_t_modulus ltac:(lia) ltac:(reflexivity)) as Hle.
  repeat split; lia.
Qed.

(** X10. The ["std::accumulate"] checksum of a concatenation is the sum
    of the checksums of the parts, reduced modulo 2^64. *)
Theorem checksum_std_accumulate_app (a b : string_view) :
  checksum_std_accumulate (a ++ b)
  = (checksum_std_accumulate a + checksum_std_accumulate b) mod size_t_modulus.
Proof.
  rewrite !checksum_std_accumulate_modular, byte_sum_app.
  now rewrite <- Zplus_mod.
Qed.

(** X11. The ["std::accumulate"] checksum does not depend on the order of
    the bytes: two strings that are permutations of one another have the
    same checksum. *)
Theorem checksum_std_accumulate_permutation (a b : string_view) :
  a ≡ₚ b -> checksum_std_accumulate a = checksum_std_accumulate b.
Proof.
  intros Hperm. rewrite !checksum_std_accumulate_modular.
  now rewrite (byte_sum_permutation a b Hperm).
Qed.

Lemma checksum_std_accumulate_permutation_witness :
  checksum_std_accumulate (literal "ab") = checksum_std_accumulate (literal "ba").
Proof.
  apply (checksum_std_accumulate_permutation (literal "ab") (literal "ba")).
  apply perm_swap.
Defined.

(** ** Random generation *)

(** X12. [random_generation_functions] always succeeds and returns the
    three callables, none of them flagged as baseline; it grows the shared
    buffer to [token_length] with zero bytes when it is shorter and never
    shrinks or rewrites it, touches neither generator, and does nothing to
    the state when asked again for a length the buffer already holds. *)
Theorem random_generation_functions_buffer (token_length : nat) (st : generation_state) :
  exists st',
    random_generation_functions token_length st
      = Some (random_generation_registry token_length, st')
    /\ length (random_generation_registry token_length) = 3%nat
    /\ baseline_count (random_generation_registry token_length) = 0%nat
    /\ buffer st' = buffer st ++ replicate (token_length - length (buffer st)) x00
    /\ length (buffer st') = Nat.max (length (buffer st)) token_length
    /\ rand_source st' = rand_source st /\ rand_calls st' = rand_calls st
    /\ generator_source st' = generator_source st
    /\ generator_calls st' = generator_calls st
    /\ forall shorter, (shorter <= token_length)%nat ->
         random_generation_functions shorter st'
         = Some (random_generation_registry shorter, st').
Proof.
  unfold random_generation_functions, buffer_reserve. run_monad.
  eexists. split; [reflexivity |]. split; [reflexivity |]. split; [reflexivity |].
  destruct (Nat.ltb_spec (length (buffer st)) token_length) as [Hlt | Hge]; simpl.
  - split; [reflexivity |]. rewrite length_app, length_replicate.
    split; [lia |]. do 4 (split; [reflexivity |]).
    intros shorter Hle.
    destruct (Nat.ltb_spec (length (buffer st) + (token_length - length (buffer st))) shorter);
      [lia | reflexivity].
  - replace (token_length - length (buffer st))%nat with 0%nat by lia.
    simpl. rewrite app_nil_r. split; [reflexivity |].
    split; [lia |]. do 4 (split; [reflexivity |]).
    intros shorter Hle.
    destruct (Nat.ltb_spec (length (buffer st)) shorter); [lia | reflexivity].
Qed.

(** The iteration of ["std::rand % uint8"]. *)
Lemma std_rand_uint8_step (alphabet : string_view) (i : nat) (st : generation_state) :
  to_uint8 (Z.of_nat (length alphabet)) <> 0 ->
  (i < length (buffer st))%nat ->
  exists c,
    alphabet !! Z.to_nat (Z.rem (rand_value st (rand_calls st))
                                (to_uint8 (Z.of_nat (length alphabet)))) = Some c
    /\ (r ← std_rand;
        index ← lift_option (int_rem r (to_uint8 (Z.of_nat (length alphabet))));
        c ← lift_option (string_view_at alphabet index);
        buffer_store i c) st
       = Some (tt, {| buffer := <[i := c]> (buffer st);
                      rand_source := rand_source st;
                      rand_calls := S (rand_calls st);
                      generator_source := generator_source st;
                      generator_calls := generator_calls st |}).
Proof.
  intros Hdiv Hi.
  destruct (uint8_index_in_bounds alphabet (rand_value st (rand_calls st)) Hdiv)
    as (index & c & Hrem & Hrange & Hat).
  { apply Z.mod_pos_bound. unfold RAND_MAX. lia. }
  assert (Hindex : index = Z.rem (rand_value st (rand_calls st))
                                 (to_uint8 (Z.of_nat (length alphabet)))).
  { unfold int_rem in Hrem.
    destruct (to_uint8 (Z.of_nat (length alphabet)) =? 0); now inversion Hrem. }
  assert (Hsmall : index < size_t_modulus).
  { subst index. unfold to_uint8, size_t_modulus.
    pose proof (Z.mod_pos_bound (Z.of_nat (length alphabet)) 256 ltac:(lia)) as Hd.
    pose proof (Z.rem_bound_pos (rand_value st (rand_calls st))
                  (Z.of_nat (length alphabet) mod 256)
                  ltac:(apply Z.mod_pos_bound; unfold RAND_MAX; lia)
                  ltac:(unfold to_uint8 in Hdiv; lia)) as Hr.
    lia. }
  exists c. split.
  - rewrite <- Hindex. unfold string_view_at in Hat.
    rewrite Z.mod_small in Hat by lia. exact Hat.
  - run_monad. unfold std_rand. fold (rand_value st (rand_calls st)).
    rewrite Hrem, Hat. unfold buffer_store. simpl.
    now rewrite (proj2 (Nat.ltb_lt _ _) Hi).
Qed.

Lemma generate_std_rand_uint8_unfold (token_length : nat) (alphabet : string_view) :
  generate_std_rand_uint8 token_length alphabet
  = (for_loop 0 token_length (std_rand_uint8_body alphabet)
       ≫= fun _ => mret (Z.of_nat token_length)).
Proof. reflexivity. Qed.

Lemma std_rand_uint8_loop (alphabet : string_view) :
  to_uint8 (Z.of_nat (length alphabet)) <> 0 ->
  forall count start st, (start + count <= length (buffer st))%nat ->
    exists st',
      for_loop start count (std_rand_uint8_body alphabet) st = Some (tt, st')
      /\ rand_source st' = rand_source st
      /\ rand_calls st' = (rand_calls st + count)%nat
      /\ generator_source st' = generator_source st
      /\ generator_calls st' = generator_calls st
      /\ length (buffer st') = length (buffer st)
      /\ (forall j, (j < start \/ start + count <= j)%nat ->
            buffer st' !! j = buffer st !! j)
      /\ (forall j, (start <= j < start + count)%nat ->
            buffer st' !! j
            = alphabet !! Z.to_nat (Z.rem (rand_value st (rand_calls st + (j - start)))
                                          (to_uint8 (Z.of_nat (length alphabet))))).
Proof.
  intros Hdiv count. induction count as [| count IH]; intros start st Hfit.
  - exists st. simpl. split; [reflexivity |]. split; [reflexivity |].
    split; [lia |]. split; [reflexivity |]. split; [reflexivity |].
    split; [reflexivity |]. split; [reflexivity |]. intros j Hj. lia.
  - destruct (std_rand_uint8_step alphabet start st Hdiv) as (c & Hc & Hstep); [lia |].
    set (st1 := {| buffer := <[start := c]> (buffer st);
                   rand_source := rand_source st;
                   rand_calls := S (rand_calls st);
                   generator_source := generator_source st;
                   generator_calls := generator_calls st |}) in Hstep.
    destruct (IH (S start) st1)
      as (st2 & Hloop & Hsrc & Hcalls & Hgsrc & Hgcalls & Hlen & Hout & Hin).
    { simpl. rewrite length_insert. lia. }
    exists st2. simpl for_loop.
    erewrite (bind_run (std_rand_uint8_body alphabet start)) by exact Hstep.
    cbv beta. rewrite Hloop.
    simpl in Hsrc, Hcalls, Hgsrc, Hgcalls, Hlen, Hout.
    rewrite length_insert in Hlen.
    split; [reflexivity |]. split; [exact Hsrc |]. split; [lia |].
    split; [exact Hgsrc |]. split; [exact Hgcalls |]. split; [exact Hlen |]. split.
    + intros j Hj. rewrite Hout by lia. apply list_lookup_insert_ne. lia.
    + intros j Hj. destruct (decide (j = start)) as [-> | Hne].
      * rewrite Hout by lia. rewrite list_lookup_insert_eq by lia.
        rewrite Nat.sub_diag, Nat.add_0_r. now rewrite Hc.
      * rewrite Hin by lia. unfold rand_value. simpl.
        replace (S (rand_calls st + (j - S start)))%nat
          with (rand_calls st + (j - start))%nat by lia.
        reflexivity.
Qed.

(** X14. What one call of ["std::rand % uint8"] does, for an alphabet
    whose size is not a multiple of 256 and a buffer of at least
    [token_length] bytes: it returns [token_length], calls [std::rand]
    exactly [token_length] times and the other generator never, keeps the
    size of the buffer and its bytes from index [token_length] on, and
    stores at each index [i] below [token_length] the alphabet byte at
    position [r_i % (size mod 256)], [r_i] being the [i]-th value drawn.
    Only the first [size mod 256] bytes of the alphabet are ever used. *)
Theorem generate_std_rand_uint8_bytes
    (token_length : nat) (alphabet : string_view) (st : generation_state) :
  to_uint8 (Z.of_nat (length alphabet)) <> 0 ->
  (token_length <= length (buffer st))%nat ->
  exists st',
    generate_std_rand_uint8 token_length alphabet st = Some (Z.of_nat token_length, st')
    /\ rand_source st' = rand_source st
    /\ rand_calls st' = (rand_calls st + token_length)%nat
    /\ generator_source st' = generator_source st
    /\ generator_calls st' = generator_calls st
    /\ length (buffer st') = length (buffer st)
    /\ (forall j, (token_length <= j)%nat -> buffer st' !! j = buffer st !! j)
    /\ (forall j, (j < token_length)%nat ->
          buffer st' !! j
          = alphabet !! Z.to_nat (Z.rem (rand_value st (rand_calls st + j))
                                        (to_uint8 (Z.of_nat (length alphabet)))))
    /\ Forall (fun c => c ∈ take (Z.to_nat (to_uint8 (Z.of_nat (length alphabet)))) alphabet)
         (take token_length (buffer st')).
Proof.
  intros Hdiv Hfit.
  destruct (std_rand_uint8_loop alphabet Hdiv token_length 0%nat st)
    as (st' & Hloop & Hsrc & Hcalls & Hgsrc & Hgcalls & Hlen & Hout & Hin); [lia |].
  exists st'. rewrite generate_std_rand_uint8_unfold, (bind_run _ _ _ _ _ Hloop).
  split; [reflexivity |]. split; [exact Hsrc |]. split; [exact Hcalls |].
  split; [exact Hgsrc |]. split; [exact Hgcalls |]. split; [exact Hlen |].
  assert (Hbytes : forall j, (j < token_length)%nat ->
            buffer st' !! j
            = alphabet !! Z.to_nat (Z.rem (rand_value st (rand_calls st + j))
                                          (to_uint8 (Z.of_nat (length alphabet))))).
  { intros j Hj. rewrite Hin by lia. now rewrite Nat.sub_0_r. }
  split; [intros j Hj; apply Hout; lia |]. split; [exact Hbytes |].
  apply Forall_lookup. intros j c Hj.
  apply lookup_take_Some in Hj as [Hj Hlt]. rewrite Hbytes in Hj by lia.
  apply list_elem_of_lookup.
  exists (Z.to_nat (Z.rem (rand_value st (rand_calls st + j))
                          (to_uint8 (Z.of_nat (length alphabet))))).
  rewrite lookup_take_lt; [exact Hj |].
  assert (Hr : 0 <= rand_value st (rand_calls st + j))
    by (apply Z.mod_pos_bound; unfold RAND_MAX; lia).
  assert (Hd : 0 < to_uint8 (Z.of_nat (length alphabet))).
  { unfold to_uint8 in *.
    pose proof (Z.mod_pos_bound (Z.of_nat (length alphabet)) 256 ltac:(lia)). lia. }
  pose proof (Z.rem_bound_pos _ _ Hr Hd). lia.
Qed.

Lemma generate_std_rand_uint8_bytes_witness :
  exists st',
    generate_std_rand_uint8 2 (literal "abc")
      {| buffer := [x00; x00; x00]; rand_source := N.of_nat; rand_calls := 4;
         generator_source := N.of_nat; generator_calls := 0 |}
    = Some (2, st')
    /\ buffer st' = literal "bc" ++ [x00].
Proof.
  destruct (generate_std_rand_uint8_bytes 2 (literal "abc")
              {| buffer := [x00; x00; x00]; rand_source := N.of_nat; rand_calls := 4;
                 generator_source := N.of_nat; generator_calls := 0 |})
    as (st' & Hrun & _).
  - vm_compute. discriminate.
  - simpl. lia.
  - exists st'. split; [exact Hrun |].
    vm_compute in Hrun. inversion Hrun. reflexivity.
Defined.

Lemma std_rand_uint8_body_overflow (alphabet : string_view) (i : nat) (st : generation_state) :
  (length (buffer st) <= i)%nat -> std_rand_uint8_body alphabet i st = None.
Proof.
  intros Hi. unfold std_rand_uint8_body. run_monad. unfold std_rand.
  destruct (int_rem _ _) as [index |]; [| reflexivity].
  destruct (string_view_at alphabet index) as [c |]; [| reflexivity].
  unfold buffer_store. simpl.
  now rewrite (proj2 (Nat.ltb_ge _ _) Hi).
Qed.

Lemma std_rand_uint8_body_length (alphabet : string_view) (i : nat)
    (st st' : generation_state) :
  std_rand_uint8_body alphabet i st = Some (tt, st') ->
  length (buffer st') = length (buffer st).
Proof.
  unfold std_rand_uint8_body. run_monad. unfold std_rand.
  destruct (int_rem _ _) as [index |]; [| discriminate].
  destruct (string_view_at alphabet index) as [c |]; [| discriminate].
  unfold buffer_store. simpl.
  destruct (i <? length (buffer st))%nat; [| discriminate].
  inversion 1. simpl. apply length_insert.
Qed.

Lemma std_rand_uint8_loop_overflow (alphabet : string_view) :
  forall count start st, (length (buffer st) < start + count)%nat -> (0 < count)%nat ->
    for_loop start count (std_rand_uint8_body alphabet) st = None.
Proof.
  induction count as [| count IH]; intros start st Hshort Hpos; [lia |].
  simpl for_loop.
  destruct (std_rand_uint8_body alphabet start st) as [[[] st1] |] eqn:Hstep.
  - erewrite bind_run by exact Hstep. cbv beta.
    pose proof (std_rand_uint8_body_length alphabet start st st1 Hstep) as Hlen.
    destruct (Nat.le_gt_cases (length (buffer st)) start) as [Hle | Hgt].
    + rewrite (std_rand_uint8_body_overflow alphabet start st Hle) in Hstep. discriminate.
    + apply IH; lia.
  - now apply bind_fail.
Qed.

(** X13. When a call of ["std::rand % uint8"] has a result: exactly when
    no byte is asked for, or the size of the alphabet is not a multiple
    of 256 and the buffer holds at least [token_length] bytes. An empty
    alphabet, an alphabet of 256 bytes and a buffer that is too short each
    leave a call for at least one byte without result. *)
Theorem generate_std_rand_uint8_defined
    (token_length : nat) (alphabet : string_view) (st : generation_state) :
  is_Some (generate_std_rand_uint8 token_length alphabet st)
  <-> token_length = 0%nat
      \/ (Z.of_nat (length alphabet) mod 256 <> 0
          /\ (token_length <= length (buffer st))%nat).
Proof.
  split.
  - intros Hsome. destruct token_length as [| n]; [now left |]. right.
    destruct (Z.eq_dec (Z.of_nat (length alphabet) mod 256) 0) as [Hzero | Hdiv].
    + rewrite (generate_std_rand_uint8_zero_divisor n alphabet st Hzero) in Hsome.
      destruct Hsome as [? Hsome]. discriminate.
    + split; [exact Hdiv |].
      destruct (Nat.le_gt_cases (S n) (length (buffer st))) as [Hle | Hgt]; [exact Hle |].
      rewrite generate_std_rand_uint8_unfold in Hsome.
      rewrite (bind_fail _ _ _ (std_rand_uint8_loop_overflow alphabet (S n) 0%nat st
                                  ltac:(lia) ltac:(lia))) in Hsome.
      destruct Hsome as [? Hsome]. discriminate.
  - intros [-> | [Hdiv Hfit]].
    + eexists. reflexivity.
    + destruct (generate_std_rand_uint8_fills token_length alphabet st Hdiv Hfit)
        as (st' & Hrun & _).
      rewrite Hrun. eauto.
Qed.

(** ** Registries *)

(** X15. In every build the names within each registry are pairwise
    distinct, so a name identifies one tracked function; this holds for the
    checksum, hashing, equality and ordering registries and for the
    random-generation registry of every token length. *)
Theorem registry_names_distinct
    (k : string_kernels) (t : build_target) (token_length : nat) :
  NoDup (name <$> checksum_functions k t)
  /\ NoDup (name <$> hashing_functions k)
  /\ NoDup (name <$> equality_functions k t)
  /\ NoDup (name <$> ordering_functions k t)
  /\ NoDup (name <$> random_generation_registry token_length).
Proof.
  split; [destruct t as [[] [] [] []]; apply (bool_decide_unpack _); vm_compute; exact I |].
  split; [apply (bool_decide_unpack _); vm_compute; exact I |].
  split; [destruct t as [[] [] [] []]; apply (bool_decide_unpack _); vm_compute; exact I |].
  split; [destruct t as [[] [] [] []]; apply (bool_decide_unpack _); vm_compute; exact I |].
  unfold random_generation_registry. simpl.
  rewrite !NoDup_cons, !not_elem_of_cons.
  repeat split; try discriminate; try apply not_elem_of_nil. apply NoDup_nil_2.
Qed.

(** ** Driver *)

Lemma runner_calls_app (l1 l2 : list event) :
  runner_calls (l1 ++ l2) = (runner_calls l1 + runner_calls l2)%nat.
Proof. unfold runner_calls. now rewrite filter_app, length_app. Qed.

Lemma printed_lines_app (l1 l2 : list event) :
  printed_lines (l1 ++ l2) = (printed_lines l1 + printed_lines l2)%nat.
Proof. unfold printed_lines. now rewrite filter_app, length_app. Qed.

Lemma bench_log_counts (k : string_kernels) (t : build_target) (strings : list string_view) :
  runner_calls (bench_log k t strings) = (if decide (strings = []) then 0 else 6)%nat
  /\ printed_lines (bench_log k t strings) = 0%nat.
Proof.
  unfold bench_log, events_of. destruct strings as [| s rest].
  - split; reflexivity.
  - rewrite (bench_nonempty k t (s :: rest) []) by discriminate.
    split; reflexivity.
Qed.

(** X16. One call of [bench] makes either no runner invocation (empty
    corpus) or exactly six, prints nothing itself, and hands every runner
    the very corpus it was given. *)
Theorem bench_runner_invocations
    (k : string_kernels) (t : build_target) (strings : list string_view) :
  runner_calls (bench_log k t strings) = (if decide (strings = []) then 0 else 6)%nat
  /\ printed_lines (bench_log k t strings) = 0%nat
  /\ Forall (fun e => event_corpus e = Some strings) (bench_log k t strings).
Proof.
  destruct (bench_log_counts k t strings) as [Hcalls Hlines].
  split; [exact Hcalls |]. split; [exact Hlines |].
  unfold bench_log, events_of. destruct strings as [| s rest].
  - constructor.
  - rewrite (bench_nonempty k t (s :: rest) []) by discriminate.
    simpl. repeat constructor.
Qed.

Lemma driven_counts (k : string_kernels) (t : build_target)
    (plan : list (event * list string_view)) :
  Forall (fun p => is_runner_call p.1 = false) plan ->
  runner_calls (flat_map (fun '(header, corpus) => header :: bench_log k t corpus) plan)
    = (6 * length (filter (fun c => c <> []) plan.*2))%nat
  /\ printed_lines (flat_map (fun '(header, corpus) => header :: bench_log k t corpus) plan)
    = length plan.
Proof.
  induction 1 as [| [header corpus] plan Hheader _ [IHcalls IHlines]]; [split; reflexivity |].
  simpl in Hheader.
  destruct (bench_log_counts k t corpus) as [Hcalls Hlines].
  change (flat_map _ ((header, corpus) :: plan))
    with ([header] ++ bench_log k t corpus
          ++ flat_map (fun '(header, corpus) => header :: bench_log k t corpus) plan).
  assert (Hone : runner_calls [header] = 0%nat /\ printed_lines [header] = 1%nat)
    by (destruct header; try discriminate; split; reflexivity).
  destruct Hone as [Hone_calls Hone_lines].
  rewrite !runner_calls_app, !printed_lines_app, IHcalls, IHlines, Hcalls, Hlines,
    Hone_calls, Hone_lines.
  rewrite fmap_cons, filter_cons. simpl.
  destruct (decide (corpus = [])) as [-> | Hne].
  - rewrite (decide_False (P := [] <> [])) by tauto. split; lia.
  - rewrite (decide_True (P := corpus <> [])) by assumption. simpl. split; lia.
Qed.

(** X17. On a dataset that loads, [bench_on_input_data] prints exactly
    thirteen lines, one per corpus, and makes six runner invocations for
    every corpus that is not empty and none for the others. The whole text
    is a corpus of one element even when the text has no byte, so at least
    six invocations are made. *)
Theorem bench_on_input_data_counts
    (k : string_kernels) (t : build_target) (env : environment)
    (argc : Z) (argv : list string_view) (d : dataset_t) :
  prepare_benchmark_environment env argc argv = Some d ->
  exists log,
    events_of (bench_on_input_data k t env argc argv) = Some log
    /\ printed_lines log = 13%nat
    /\ runner_calls log
       = (6 * length (filter (fun c => c <> []) (driven_corpora d)))%nat
    /\ (6 <= runner_calls log <= 78)%nat.
Proof.
  intros Hload.
  set (plan := [ (words_header, tokens d); (lines_header, lines d); (text_header, [text d]) ]
               ++ map (fun n => (length_header n, filter_by_length (tokens d) n))
                    token_lengths).
  assert (Hlog : events_of (bench_on_input_data k t env argc argv)
                 = Some (flat_map (fun '(header, corpus) => header :: bench_log k t corpus)
                           plan)).
  { unfold events_of.
    now rewrite (bench_on_input_data_run k t env argc argv d [] Hload). }
  assert (Hplan : Forall (fun p => is_runner_call p.1 = false) plan)
    by (repeat constructor).
  destruct (driven_counts k t plan Hplan) as [Hcalls Hlines].
  assert (Hcorpora : plan.*2 = driven_corpora d) by reflexivity.
  eexists. split; [exact Hlog |]. split; [exact Hlines |].
  rewrite Hcalls, Hcorpora. split; [reflexivity |].
  pose proof (length_filter (fun c : list string_view => c <> []) (driven_corpora d))
    as Hmax.
  assert (Htotal : length (driven_corpora d) = 13%nat) by reflexivity.
  assert (Htext : [text d] ∈ filter (fun c : list string_view => c <> []) (driven_corpora d)).
  { apply list_elem_of_filter. split; [discriminate |].
    unfold driven_corpora. right. right. left. }
  destruct (filter (fun c : list string_view => c <> []) (driven_corpora d)) as [| c rest].
  - now apply elem_of_nil in Htext.
  - simpl in *. lia.
Qed.

Lemma bench_on_input_data_counts_witness :
  exists log,
    events_of (bench_on_input_data reference_kernels serial_target cat_dog_environment
                 2 [literal "bench_token"; literal "data.txt"]) = Some log
    /\ printed_lines log = 13%nat
    /\ runner_calls log = 24%nat.
Proof.
  destruct (bench_on_input_data_counts reference_kernels serial_target cat_dog_environment
              2 [literal "bench_token"; literal "data.txt"] cat_dog_dataset)
    as (log & Hlog & Hlines & Hcalls & _).
  - reflexivity.
  - exists log. split; [exact Hlog |]. split; [exact Hlines |].
    rewrite Hcalls. reflexivity.
Defined.

(** X18. Started with a path ([argc] at least 2) whose dataset loads,
    [main] returns 0 and its output is the two opening lines, then all that
    [bench_on_input_data] does, then the closing line; what was logged
    before is kept. *)
Theorem main_on_loaded_dataset
    (k : string_kernels) (t : build_target) (env : environment)
    (argc : Z) (argv : list string_view) (d : dataset_t) (log : execution) :
  2 <= argc ->
  prepare_benchmark_environment env argc argv = Some d ->
  exists data,
    events_of (bench_on_input_data k t env argc argv) = Some data
    /\ main k t env argc argv log
       = Some (0, log
           ++ [ printf (line "StringZilla. Starting token-level benchmarks.") [];
                printf (line "- Seconds per benchmark: %zu") [seconds_per_benchmark env] ]
           ++ data
           ++ [ printf (line "All benchmarks passed.") [] ]).
Proof.
  intros Hargc Hload.
  pose proof (bench_on_input_data_run k t env argc argv d [] Hload) as Hempty.
  pose proof (bench_on_input_data_run k t env argc argv d
                (log ++ [printf (line "StringZilla. Starting token-level benchmarks.") []]
                     ++ [printf (line "- Seconds per benchmark: %zu")
                                [seconds_per_benchmark env]]) Hload) as Hrun.
  match type of Hempty with
  | _ = Some (_, [] ++ ?added) => set (data := added) in *
  end.
  assert (Hdata : events_of (bench_on_input_data k t env argc argv) = Some data)
    by (unfold events_of; now rewrite Hempty).
  exists data. split; [exact Hdata |].
  rewrite main_run. rewrite (proj2 (Z.ltb_ge argc 2) Hargc). rewrite Hrun.
  f_equal. f_equal. now rewrite <- !app_assoc.
Qed.

Lemma main_on_loaded_dataset_witness :
  exists data log,
    main reference_kernels serial_target cat_dog_environment
      2 [literal "bench_token"; literal "data.txt"] [] = Some (0, log)
    /\ log = [ printf (line "StringZilla. Starting token-level benchmarks.") [];
               printf (line "- Seconds per benchmark: %zu") [5] ]
             ++ data ++ [ printf (line "All benchmarks passed.") [] ].
Proof.
  destruct (main_on_loaded_dataset reference_kernels serial_target cat_dog_environment
              2 [literal "bench_token"; literal "data.txt"] cat_dog_dataset [])
    as (data & _ & Hmain).
  - lia.
  - reflexivity.
  - exists data. eexists. split; [exact Hmain | reflexivity].
Defined.
